(** * SnV spin Hamiltonian: a shallow embedding of [snv_hamiltonian.py]

    The Python module builds 4x4 perturbation terms for the ground and
    excited manifolds of the defect, diagonalises the two blocks, moves the
    dipole matrices into the eigenbasis and enlarges the result by a binary
    label.

    Numbers.  numpy's [float64] and [complex128] are read as real numbers
    [R] and as pairs of reals; rounding is outside this model.  The one
    place where IEEE behaviour decides a property (division by a zero norm
    in [make_B_vector]) is modelled a second time over binary64 floats in
    [Module Float64].

    Arrays.  A numpy matrix is a list of rows.  Reads and writes by index
    that the interpreter checks ([IndexError], [ValueError] of
    [list.index]) are modelled in the [option] monad wherever the index is
    computed at run time; slices with literal bounds are total. *)

From Stdlib Require Import Reals Lra Lia List Arith Bool Sorted Permutation.
From Stdlib Require Floats.
Import ListNotations.

Local Open Scope R_scope.

(** ** Complex numbers *)

Definition C : Type := (R * R)%type.

Definition RtoC (x : R) : C := (x, 0).
Definition C0 : C := RtoC 0.
(** Python's [1.j]. *)
Definition Ci : C := (0, 1).

Definition Cplus (a b : C) : C := (fst a + fst b, snd a + snd b).
Definition Copp (a : C) : C := (- fst a, - snd a).
Definition Cminus (a b : C) : C := (fst a - fst b, snd a - snd b).
Definition Cmult (a b : C) : C :=
  (fst a * fst b - snd a * snd b, fst a * snd b + snd a * fst b).
Definition Cdiv (a b : C) : C :=
  ((fst a * fst b + snd a * snd b) / (fst b * fst b + snd b * snd b),
   (snd a * fst b - fst a * snd b) / (fst b * fst b + snd b * snd b)).
Definition Cconj (a : C) : C := (fst a, - snd a).

(** ** Lists as numpy arrays *)

Section Arrays.
Context {A : Type}.
Variable d : A.

(** [M[i, j]], with [d] outside the array. *)
Definition mget (M : list (list A)) (i j : nat) : A := nth j (nth i M []) d.

Definition nrows (M : list (list A)) : nat := length M.
Definition ncols (M : list (list A)) : nat := length (hd [] M).

(** The matrix with [r] rows and [c] columns whose entry [(i, j)] is
    [f i j]. *)
Definition build (r c : nat) (f : nat -> nat -> A) : list (list A) :=
  map (fun i => map (fun j => f i j) (seq 0 c)) (seq 0 r).

(** [np.zeros((r, c))] when [d] is the zero of [A]. *)
Definition zeros (r c : nat) : list (list A) := build r c (fun _ _ => d).

(** [M[r0:r1, c0:c1] = B] for a [B] of the slice's shape. *)
Definition assign_block (M : list (list A)) (r0 r1 c0 c1 : nat)
           (B : list (list A)) : list (list A) :=
  build (nrows M) (ncols M)
        (fun i j =>
           if (r0 <=? i) && (i <? r1) && (c0 <=? j) && (j <? c1)
           then mget B (i - r0) (j - c0)
           else mget M i j).

(** [M[r0:r1, c0:c1]] read inside the array. *)
Definition slice (M : list (list A)) (r0 r1 c0 c1 : nat) : list (list A) :=
  build (r1 - r0) (c1 - c0) (fun i j => mget M (r0 + i) (c0 + j)).

(** [M[i, j]] as an indexing expression: [None] stands for
    [IndexError]. *)
Definition mread (M : list (list A)) (i j : nat) : option A :=
  match nth_error M i with
  | Some row => nth_error row j
  | None => None
  end.

(** [M[i, j] = v]; [None] stands for [IndexError]. *)
Definition mwrite (M : list (list A)) (i j : nat) (v : A)
  : option (list (list A)) :=
  if (i <? nrows M) && (j <? ncols M)
  then Some (build (nrows M) (ncols M)
                   (fun i' j' =>
                      if (i' =? i) && (j' =? j) then v else mget M i' j'))
  else None.

(** [M.transpose()] of a two-dimensional array. *)
Definition transpose (M : list (list A)) : list (list A) :=
  build (ncols M) (nrows M) (fun i j => mget M j i).

(** [l[::2]]. *)
Fixpoint evens (l : list A) : list A :=
  match l with
  | [] => []
  | x :: t => x :: match t with [] => [] | _ :: t' => evens t' end
  end.

(** [w[idx]] with an index array. *)
Definition take (l : list A) (idx : list nat) : list A :=
  map (fun j => nth j l d) idx.

(** [M[:, idx]]. *)
Definition take_cols (M : list (list A)) (idx : list nat) : list (list A) :=
  map (fun row => take row idx) M.
End Arrays.

(** [M[::2, ::2]]. *)
Definition evens2 {A} (M : list (list A)) : list (list A) :=
  evens (map evens M).

(** [M[:, ::2]]: the columns 0, 2, ... of [M]. *)
Definition even_columns {A} (M : list (list A)) : list (list A) :=
  map evens M.

(** [enumerate(l)]. *)
Definition enumerate {A} (l : list A) : list (nat * A) :=
  combine (seq 0 (length l)) l.

(** Rows of length [c], [r] of them. *)
Definition shape {A} (M : list (list A)) (r c : nat) : Prop :=
  length M = r /\ Forall (fun row => length row = c) M.

(** ** Loops that may raise *)

Definition bind {A B} (o : option A) (f : A -> option B) : option B :=
  match o with
  | Some a => f a
  | None => None
  end.

Notation "x <- c1 ;; c2" := (bind c1 (fun x => c2))
  (at level 61, c1 at next level, right associativity).

(** [for x in xs: body], the loop state threaded through; an exception in
    the body leaves the loop. *)
Fixpoint for_each {S X} (xs : list X) (body : X -> S -> option S) (st : S)
  : option S :=
  match xs with
  | [] => Some st
  | x :: t => st' <- body x st ;; for_each t body st'
  end.

(** [l.index(x)]: the first position that holds [x]; [None] stands for
    [ValueError]. *)
Fixpoint list_index {A} (eq_dec : forall a b : A, {a = b} + {a <> b})
         (x : A) (l : list A) : option nat :=
  match l with
  | [] => None
  | y :: t => if eq_dec y x then Some O
              else option_map S (list_index eq_dec x t)
  end.

(** ** Complex and real matrices *)

Definition cmat : Type := list (list C).
Definition rmat : Type := list (list R).

Definition cget : cmat -> nat -> nat -> C := mget C0.
Definition rget : rmat -> nat -> nat -> R := mget 0.

(** Elementwise [A + B] of two arrays of one shape. *)
Definition madd (A B : cmat) : cmat :=
  map (fun rr => map (fun xy => Cplus (fst xy) (snd xy))
                     (combine (fst rr) (snd rr)))
      (combine A B).

(** [A + z] for a scalar [z]. *)
Definition madd_scalar (A : cmat) (z : C) : cmat :=
  map (map (fun x => Cplus x z)) A.

(** [z * A] and [A * z] for a scalar [z]. *)
Definition mscale (z : C) (A : cmat) : cmat := map (map (Cmult z)) A.
Definition mscale_r (A : cmat) (z : C) : cmat :=
  map (map (fun x => Cmult x z)) A.

(** [A.conjugate()]. *)
Definition mconj (A : cmat) : cmat := map (map Cconj) A.

(** [A.conjugate().transpose()]. *)
Definition ctranspose (A : cmat) : cmat := transpose C0 (mconj A).

(** The sum of the products [a_k * b_k]. *)
Definition cdot (a b : list C) : C :=
  fold_left (fun acc xy => Cplus acc (Cmult (fst xy) (snd xy)))
            (combine a b) C0.

(** Column [j] of [B]. *)
Definition col (B : cmat) (j : nat) : list C := map (fun row => nth j row C0) B.

(** [np.dot(A, B)] of two matrices. *)
Definition mdot (A B : cmat) : cmat :=
  map (fun row => map (fun j => cdot row (col B j)) (seq 0 (ncols B))) A.

(** [np.diag(l)]. *)
Definition diag (l : list R) : cmat :=
  build (length l) (length l)
        (fun i j => if (i =? j)%nat then RtoC (nth i l 0) else C0).

(** [M] equals its conjugate transpose. *)
Definition Hermitian (M : cmat) : Prop := M = ctranspose M.

(** Three-component real vectors. *)
Definition vec3 : Type := (R * R * R)%type.

Definition vx (v : vec3) : R := fst (fst v).
Definition vy (v : vec3) : R := snd (fst v).
Definition vz (v : vec3) : R := snd v.

(** The Euclidean norm. *)
Definition norm3 (v : vec3) : R :=
  sqrt (vx v * vx v + vy v * vy v + vz v * vz v).

(** The squared Euclidean norm. *)
Definition sqnorm3 (v : vec3) : R := vx v * vx v + vy v * vy v + vz v * vz v.

Definition scale3 (k : R) (v : vec3) : vec3 := (k * vx v, k * vy v, k * vz v).
Definition dot3 (a b : vec3) : R := vx a * vx b + vy a * vy b + vz a * vz b.

(** Four-component tuples: the shape [numpy.linalg.eigh] gives back for a
    4x4 block. *)
Definition vec4 (A : Type) : Type := (A * A * A * A)%type.

Definition v4list {A} (v : vec4 A) : list A :=
  [fst (fst (fst v)); snd (fst (fst v)); snd (fst v); snd v].

(** ** Helper functions *)

(** One step of an insertion sort of positions by their keys in [w]; a
    position goes behind every position whose key is not larger. *)
Fixpoint insert_by (w : list R) (i : nat) (l : list nat) : list nat :=
  match l with
  | [] => [i]
  | j :: t => if Rle_dec (nth j w 0) (nth i w 0)
              then j :: insert_by w i t
              else i :: l
  end.

(** [np.argsort(w)]: the positions of [w], ordered by ascending key. *)
Definition argsort (w : list R) : list nat :=
  fold_left (fun acc i => insert_by w i acc) (seq 0 (length w)) [].

(** Lines 43-49, over the reals.  For a direction other than zero this is
    what the code computes, up to rounding.  At the zero direction the code
    divides by zero and returns NaN components (see
    [Float64.make_B_vector]), which [R] does not show: a theorem whose
    conclusion depends on the value of the field carries the hypothesis
    that the direction is not zero. *)
Definition make_B_vector (magnitude : R) (coordinate_vector : vec3) : vec3 :=
  let vec := coordinate_vector in
  let nrm := Rabs (vx vec) ^ 2 + Rabs (vy vec) ^ 2 + Rabs (vz vec) ^ 2 in
  (magnitude * vx vec / nrm, magnitude * vy vec / nrm,
   magnitude * vz vec / nrm).

(** The rows of [_lattice_basis] (lines 53-56 and 61-64). *)
Definition _ex : vec3 := scale3 (1 / sqrt 6) (1, -2, 1).
Definition _ey : vec3 := scale3 (1 / sqrt 2) (1, 0, -1).
Definition _ez : vec3 := scale3 (1 / sqrt 3) (1, 1, 1).

(** Lines 51-57: [np.dot(_lattice_basis.transpose(), _vc)]. *)
Definition coord_to_lattice (coord_vector : vec3) : vec3 :=
  let _vc := coord_vector in
  (dot3 (vx _ex, vx _ey, vx _ez) _vc,
   dot3 (vy _ex, vy _ey, vy _ez) _vc,
   dot3 (vz _ex, vz _ey, vz _ez) _vc).

(** Lines 59-65: [np.dot(_lattice_basis, _vc)]. *)
Definition lattice_to_coord (lattice_vector : vec3) : vec3 :=
  let _vc := lattice_vector in
  (dot3 _ex _vc, dot3 _ey _vc, dot3 _ez _vc).

(** ** The five terms of the model *)

(** Lines 68-74. *)
Definition H_SO (lambda_SO : R) : cmat :=
  let _a := Cdiv (Cmult Ci (RtoC lambda_SO)) (RtoC 2) in
  [[C0; C0; Copp _a; C0];
   [C0; C0; C0; _a];
   [_a; C0; C0; C0];
   [C0; Copp _a; C0; C0]].

(** Lines 77-83. *)
Definition H_JT (xi_xy : R * R) : cmat :=
  let '(_x, _y) := xi_xy in
  [[RtoC _x; C0; RtoC _y; C0];
   [C0; RtoC _x; C0; RtoC _y];
   [RtoC _y; C0; RtoC (- _x); C0];
   [C0; RtoC _y; C0; RtoC (- _x)]].

(** Lines 86-97. *)
Definition H_ZL (B_vec : vec3) (gammaL f : R) : cmat :=
  let iBx := Cmult Ci (RtoC (vx B_vec)) in
  let iBy := Cmult Ci (RtoC (vy B_vec)) in
  let iBz := Cmult Ci (RtoC (vz B_vec)) in
  mscale (RtoC (f * gammaL))
         [[C0; C0; iBz; C0];
          [C0; C0; C0; iBz];
          [Copp iBz; C0; C0; C0];
          [C0; Copp iBz; C0; C0]].

(** Lines 100-113. *)
Definition H_ZS (B_vec : vec3) (gammaS : R) : cmat :=
  let '(_Bx, _By, _Bz) := B_vec in
  let _Bp := Cplus (RtoC _Bx) (Cmult Ci (RtoC _By)) in
  let _Bm := Cminus (RtoC _Bx) (Cmult Ci (RtoC _By)) in
  mscale (RtoC gammaS)
         [[RtoC _Bz; _Bm; C0; C0];
          [_Bp; RtoC (- _Bz); C0; C0];
          [C0; C0; RtoC _Bz; _Bm];
          [C0; C0; _Bp; RtoC (- _Bz)]].

(** Lines 116-129. *)
Definition H_st (alpha beta delta : R) : cmat :=
  let _ad0 := alpha - delta in
  let _ad1 := - alpha - delta in
  let _bt := beta in
  [[RtoC _ad0; C0; RtoC _bt; C0];
   [C0; RtoC _ad0; C0; RtoC _bt];
   [RtoC _bt; C0; RtoC _ad1; C0];
   [C0; RtoC _bt; C0; RtoC _ad1]].

(** The keys ['x'], ['y'], ['z'] of the dipole dictionaries. *)
Inductive axis : Type := ax_x | ax_y | ax_z.

(** Lines 131-144. *)
Definition dipole_matel (a : axis) : cmat :=
  let one := RtoC 1 in
  let mone := RtoC (- 1) in
  match a with
  | ax_x => [[one; C0; C0; C0];
             [C0; one; C0; C0];
             [C0; C0; mone; C0];
             [C0; C0; C0; mone]]
  | ax_y => [[C0; C0; mone; C0];
             [C0; C0; C0; mone];
             [mone; C0; C0; C0];
             [C0; mone; C0; C0]]
  | ax_z => mscale_r [[one; C0; C0; C0];
                      [C0; one; C0; C0];
                      [C0; C0; one; C0];
                      [C0; C0; C0; one]] (RtoC 2)
  end.

(** ** Sample parameters (lines 166-195) *)

Definition pi : R := PI.

Definition lambda_g : R := 2 * pi * 0.815.
Definition lambda_u : R := 2 * pi * 2.355.

Definition xi_xg : R := 2 * pi * 0.065.
Definition xi_yg : R := 2 * pi * 0.
Definition xi_xu : R := 2 * pi * 0.855.
Definition xi_yu : R := 2 * pi * 0.

Definition f_g : R := 0.15.
Definition f_u : R := 0.15.

Definition alpha_g : R := 2 * pi * - 0.238.
Definition beta_g : R := 2 * pi * 0.238.
Definition delta_g : R := 2 * pi * 0.
Definition alpha_u : R := 2 * pi * - 0.076.
Definition beta_u : R := 2 * pi * - 0.07.
Definition delta_u : R := 2 * pi * 0.

Definition ZPL : R := 2 * pi * 484.32.

(** The module-level flag of line 215. *)
Definition s : bool := false.

(** The one-hot occupation list [[0 if i != n else 1 for i in range(dim)]]. *)
Definition onehot (dim n : nat) : list nat :=
  map (fun i => if negb (i =? n)%nat then O else 1%nat) (seq 0 dim).

(** A basis state [[occupation, label]]. *)
Definition base_state : Type := (list nat * nat)%type.

Definition occupation_eq_dec : forall a b : list nat, {a = b} + {a <> b} :=
  list_eq_dec Nat.eq_dec.

Definition base_state_eq_dec : forall a b : base_state, {a = b} + {a <> b}.
Proof. decide equality; [apply Nat.eq_dec | apply occupation_eq_dec]. Defined.

(** Lines 291-292, 329-330 and 354-355: the label runs outside, the level
    inside. *)
Definition make_base (dim : nat) : list base_state :=
  concat (map (fun l =>
                 map (fun n => (onehot dim n, if (l =? 0)%nat then O else 1%nat))
                     (seq 0 dim))
              (seq 0 2)).

(** Line 293. *)
Definition make_snv_base (dim : nat) : list (list nat) :=
  map (fun n => onehot dim n) (seq 0 dim).

(** Keyword arguments of the public functions; [None] is a key that the
    caller left out. *)
Record kwargs : Type := { kw_b_vec : option vec3; kw_epsilon : option R }.

(** [kwargs.get(key, default)]. *)
Definition kwargs_get {A} (entry : option A) (default : A) : A :=
  match entry with
  | Some v => v
  | None => default
  end.

(** The dictionary that [manifold] and [manifold_small] return. *)
Record manifold_result : Type := {
  eigs_g : list R;
  eigs_u : list R;
  vecs_g : cmat;
  vecs_u : cmat;
  dips : axis -> cmat
}.

(** The dictionary that [system] and [system_small] return. *)
Record system_result : Type := {
  sys : manifold_result;
  px : cmat;
  py : cmat;
  pz : cmat
}.

(** Lines 334-343 and 360-369, the same loop in [dipole_ham] and in
    [dipole_ham_bfield]. *)
Definition coupling_loop (dim : nat) (dip_mat : cmat) (base : list base_state)
           (dip_ham : cmat) : option cmat :=
  for_each (enumerate base)
    (fun kb dip_ham =>
       let '(k, b) := kb in
       let state := b in
       let fac := 1%nat in
       if (0 <? fac)%nat then
         for_each (seq 0 dim)
           (fun l dip_ham =>
              for_each (seq 0 dim)
                (fun m dip_ham =>
                   occ <- nth_error (fst state) m ;;
                   if (occ =? 1)%nat then
                     let out_state := (onehot dim l, snd state) in
                     index <- list_index base_state_eq_dec out_state base ;;
                     let internal_index := l in
                     old <- mread dip_ham index k ;;
                     dm <- mread dip_mat internal_index m ;;
                     mwrite C0 dip_ham index k (Cplus old dm)
                   else Some dip_ham)
                dip_ham)
           dip_ham
       else Some dip_ham)
    dip_ham.

(** Lines 327-345 and 352-371: everything [dipole_ham] and
    [dipole_ham_bfield] do once [dip_mat] is known. *)
Definition enlarge (dip_mat : cmat) : option cmat :=
  let dim := length dip_mat in
  let base := make_base dim in
  let hdim := length base in
  let dip_ham := zeros C0 hdim hdim in
  coupling_loop dim dip_mat base dip_ham.

(** ** [make_B_vector] over binary64

    The arithmetic of lines 47-49 on IEEE doubles, which is what numpy
    runs.  [np.abs(vec) ** 2.] is written as a product and the three
    squares are added from the left; numpy may round the sum in another
    order, which does not matter where all three squares are zero.  A
    division by zero gives a NaN or an infinity and a [RuntimeWarning]; it
    does not raise. *)
Module Float64.
Import Floats.

Definition fvec3 : Type := (float * float * float)%type.

(** The failure the specification names. *)
Inductive error : Type := InvalidArgument.

Inductive outcome (A : Type) : Type :=
| Returned (v : A)
| Raised (err : error).
Arguments Returned {A} v.
Arguments Raised {A} err.

Definition make_B_vector (magnitude : float) (coordinate_vector : fvec3)
  : outcome fvec3 :=
  let '(x, y, z) := coordinate_vector in
  let nrm := (abs x * abs x + abs y * abs y + abs z * abs z)%float in
  Returned ((magnitude * x / nrm)%float, (magnitude * y / nrm)%float,
            (magnitude * z / nrm)%float).

(** A zero of either sign. *)
Definition fzero (negative : bool) : float :=
  if negative then neg_zero else zero.
End Float64.

(** CODATA 2018 values of the three [scipy.constants] the module reads;
    they instantiate the model where a closed instance is evaluated. *)
Definition codata_e : R := 1.602176634e-19.
Definition codata_hbar : R := 1.054571817e-34.
Definition codata_m_e : R := 9.1093837015e-31.

(** The default direction, spelled out: [b_vec = [0, 0, 1]]. *)
Definition along_z : kwargs :=
  {| kw_b_vec := Some (0, 0, 1); kw_epsilon := None |}.

(** Complex equations are settled by components. *)
Ltac c_unfold :=
  unfold Cconj, Copp, Cdiv, Cmult, Cplus, Cminus, Ci, C0, RtoC in *;
  cbn [fst snd] in *.

Ltac c_solve := c_unfold; f_equal; first [lra | field; lra | ring].

(** A literal 4x4 matrix against its conjugate transpose, entry by entry. *)
Ltac hermitian_4x4 :=
  unfold Hermitian, ctranspose, transpose, mconj; cbn;
  repeat (f_equal; try c_solve).

Section Model.

(** [scipy.constants]: the elementary charge, the reduced Planck constant
    and the electron mass. *)
Variables e hbar m_e : R.

(** [numpy.linalg.eigh], LAPACK code outside this repository.  The
    program calls it on 4x4 blocks only; numpy then returns four real
    eigenvalues and a 4x4 matrix whose column [i] is the eigenvector of
    eigenvalue [i]. *)
Variable eigh : cmat -> vec4 R * vec4 (vec4 C).

Definition mu_B : R := 0.5 * e * hbar / m_e.

(** Lines 38-41.  The eigenvalues of [eigh] are real, so [np.real(_w)] is
    [_w]. *)
Definition get_eigs (matrix : cmat) : list R * cmat :=
  let _w := v4list (fst (eigh matrix)) in
  let _v := map v4list (v4list (snd (eigh matrix))) in
  let _i := argsort _w in
  (take 0 _w _i, take_cols C0 _v _i).

(** Lines 146-154. *)
Definition manifold (HT_g HT_u : cmat) (D : axis -> cmat) : manifold_result :=
  let '(_Wu, _Vu) := get_eigs HT_u in
  let '(_Wg, _Vg) := get_eigs HT_g in
  let _Mvu := _Vu in
  let _Mvg := _Vg in
  let _p := fun _axis => mdot (ctranspose _Mvg) (mdot (D _axis) _Mvu) in
  {| eigs_g := _Wg; eigs_u := _Wu;
     vecs_g := _Mvg; vecs_u := _Mvu;
     dips := _p |}.

(** Lines 156-163. *)
Definition manifold_small (HT_g HT_u : cmat) (D : axis -> cmat)
  : manifold_result :=
  let '(_Wu, _Vu) := get_eigs HT_u in
  let '(_Wg, _Vg) := get_eigs HT_g in
  let _Mvu := _Vu in
  let _Mvg := _Vg in
  let _p := fun _axis =>
              evens2 (mdot (ctranspose _Mvg) (mdot (D _axis) _Mvu)) in
  {| eigs_g := evens _Wg; eigs_u := evens _Wu;
     vecs_g := evens _Mvg; vecs_u := evens _Mvu;
     dips := _p |}.

Definition gamma_L : R := mu_B / hbar * 1e-12.
Definition gamma_S : R := 2 * gamma_L.

(** Lines 199-204.  A false [_s] adds the scalar [0]. *)
Definition _Hg0 : cmat := madd (H_SO lambda_g) (H_JT (xi_xg, xi_yg)).
Definition _HgL (_B : vec3) (_s : bool) : cmat :=
  let acc := madd (madd _Hg0 (H_ZL _B gamma_L f_g)) (H_ZS _B gamma_S) in
  if _s then madd acc (H_st alpha_g beta_g delta_g)
  else madd_scalar acc (RtoC 0).

(** Lines 208-213. *)
Definition _Hu0 : cmat := madd (H_SO lambda_u) (H_JT (xi_xu, xi_yu)).
Definition _HuL (_B : vec3) (_s : bool) : cmat :=
  let acc := madd (madd _Hu0 (H_ZL _B gamma_L f_u)) (H_ZS _B gamma_S) in
  if _s then madd acc (H_st alpha_u beta_u delta_u)
  else madd_scalar acc (RtoC 0).

(** Lines 219-227.  The blocks are built with the module-level [s], not
    with the argument [_s]. *)
Definition snv_hamiltonian (_b : R) (_s : bool) (kw : kwargs) : cmat :=
  let b_vec := kwargs_get (kw_b_vec kw) (0, 0, 1) in
  let _H0 := zeros C0 8 8 in
  let B := make_B_vector _b (lattice_to_coord b_vec) in
  let _HgT := _HgL B s in
  let _HuT := madd (diag (map (fun _ => ZPL) (seq 0 4))) (_HuL B s) in
  let _H0 := assign_block C0 _H0 0 4 0 4 _HuT in
  let _H0 := assign_block C0 _H0 4 8 4 8 _HgT in
  _H0.

(** Lines 237-240: the field and the two blocks that [system] hands to
    [manifold]. *)
Definition system_B (_b : R) (kw : kwargs) : vec3 :=
  let b_vec := kwargs_get (kw_b_vec kw) (0, 0, 1) in
  make_B_vector _b b_vec.
Definition system_HgT (_b : R) (_s : bool) (kw : kwargs) : cmat :=
  _HgL (system_B _b kw) s.
Definition system_HuT (_b : R) (_s : bool) (kw : kwargs) : cmat :=
  madd (diag (map (fun _ => ZPL) (seq 0 4))) (_HuL (system_B _b kw) s).

(** Lines 229-252. *)
Definition system (_b : R) (_s : bool) (kw : kwargs) : system_result :=
  let P := dipole_matel in
  let Px := zeros C0 8 8 in
  let Py := zeros C0 8 8 in
  let Pz := zeros C0 8 8 in
  let _HgT := system_HgT _b _s kw in
  let _HuT := system_HuT _b _s kw in
  let _sys := manifold _HgT _HuT P in
  let Px := assign_block C0 Px 0 4 4 8 (dips _sys ax_x) in
  let Px := assign_block C0 Px 4 8 0 4 (ctranspose (dips _sys ax_x)) in
  let Py := assign_block C0 Py 0 4 4 8 (dips _sys ax_y) in
  let Py := assign_block C0 Py 4 8 0 4 (ctranspose (dips _sys ax_y)) in
  let Pz := assign_block C0 Pz 0 4 4 8 (dips _sys ax_z) in
  let Pz := assign_block C0 Pz 4 8 0 4 (ctranspose (dips _sys ax_z)) in
  {| sys := _sys; px := Px; py := Py; pz := Pz |}.

(** Lines 254-278. *)
Definition system_small (_b : R) (_s : bool) : system_result :=
  let P := dipole_matel in
  let Px := zeros C0 4 4 in
  let Py := zeros C0 4 4 in
  let Pz := zeros C0 4 4 in
  let B := make_B_vector _b (0, 0, 1) in
  let _HgT := _HgL B s in
  let _HuT := madd (diag (map (fun _ => ZPL) (seq 0 4))) (_HuL B s) in
  let _sys := manifold_small _HgT _HuT P in
  let Px := assign_block C0 Px 0 2 2 4 (dips _sys ax_x) in
  let Px := assign_block C0 Px 2 4 0 2 (ctranspose (dips _sys ax_x)) in
  let Py := assign_block C0 Py 0 2 2 4 (dips _sys ax_y) in
  let Py := assign_block C0 Py 2 4 0 2 (ctranspose (dips _sys ax_y)) in
  let Pz := assign_block C0 Pz 0 2 2 4 (dips _sys ax_z) in
  let Pz := assign_block C0 Pz 2 4 0 2 (ctranspose (dips _sys ax_z)) in
  {| sys := _sys; px := Px; py := Py; pz := Pz |}.

(** Lines 289, 309 and 319: [for i, k in enumerate(ens): H[i, i] = k]. *)
Definition fill_diagonal (ens : list R) (H : rmat) : option rmat :=
  for_each (enumerate ens)
    (fun ik H => let '(i, k) := ik in mwrite 0 H i i k)
    H.

(** Lines 281-301. *)
Definition vacancy (kw : kwargs) : option rmat :=
  let epsilon := kwargs_get (kw_epsilon kw) (/ 10 ^ 6) in
  let b_vec := kwargs_get (kw_b_vec kw) (0, 0, 1) in
  let _system :=
    system epsilon false {| kw_b_vec := Some b_vec; kw_epsilon := None |} in
  let dip_mat := px _system in
  let dim := length dip_mat in
  H <- fill_diagonal (eigs_g (sys _system) ++ eigs_u (sys _system))
                     (zeros 0 8 8) ;;
  let base := make_base dim in
  let snv_base := make_snv_base dim in
  let hdim := length base in
  let vacancy_ham := zeros 0 hdim hdim in
  for_each (enumerate base)
    (fun kb vacancy_ham =>
       let '(k, b) := kb in
       let index := k in
       internal_index <- list_index occupation_eq_dec (fst b) snv_base ;;
       old <- mread vacancy_ham index k ;;
       h <- mread H internal_index internal_index ;;
       mwrite 0 vacancy_ham index k (old + h))
    vacancy_ham.

(** Lines 303-310. *)
Definition vacancy4lvl : option rmat :=
  let epsilon := (/ 10 ^ 6) in
  let _system :=
    system epsilon false {| kw_b_vec := None; kw_epsilon := None |} in
  let dip_mat := px _system in
  let dim := length dip_mat in
  fill_diagonal (evens (eigs_g (sys _system)) ++ evens (eigs_u (sys _system)))
                (zeros 0 4 4).

(** Lines 380-385. *)
Definition dipole_mat (polarization : C * C * C) (kw : kwargs) : cmat :=
  let b_vec := kwargs_get (kw_b_vec kw) (0, 0, 1) in
  let epsilon := kwargs_get (kw_epsilon kw) (/ 10 ^ 6) in
  let _system :=
    system epsilon false {| kw_b_vec := Some b_vec; kw_epsilon := None |} in
  madd (madd (mscale_r (px _system) (fst (fst polarization)))
             (mscale_r (py _system) (snd (fst polarization))))
       (mscale_r (pz _system) (snd polarization)).

(** Lines 387-392. *)
Definition dipole_mat_bfield (polarization : C * C * C) (phi bm : R) : cmat :=
  let b_vec := (cos phi, 0, sin phi) in
  let epsilon := bm in
  let _system :=
    system epsilon false {| kw_b_vec := Some b_vec; kw_epsilon := None |} in
  madd (madd (mscale_r (px _system) (fst (fst polarization)))
             (mscale_r (py _system) (snd (fst polarization))))
       (mscale_r (pz _system) (snd polarization)).

(** Lines 322-345; lines 323-326 are the body of [dipole_mat]. *)
Definition dipole_ham (polarization : C * C * C) (kw : kwargs) : option cmat :=
  let dip_mat := dipole_mat polarization kw in
  enlarge dip_mat.

(** Lines 347-371; lines 348-351 are the body of [dipole_mat_bfield]. *)
Definition dipole_ham_bfield (polarization : C * C * C) (phi bm : R)
  : option cmat :=
  let dip_mat := dipole_mat_bfield polarization phi bm in
  enlarge dip_mat.

(** Lines 373-378. *)
Definition energy (kw : kwargs) : list R :=
  let epsilon := kwargs_get (kw_epsilon kw) (/ 10 ^ 6) in
  let b_vec := kwargs_get (kw_b_vec kw) (0, 0, 1) in
  let _system :=
    system epsilon false {| kw_b_vec := Some b_vec; kw_epsilon := None |} in
  eigs_g (sys _system) ++ eigs_u (sys _system).

(** What lines 234 and 243-244 make of a 4x4 matrix [T]; lines 245-250
    do the same for the other two axes. *)
Definition composite (T : cmat) : cmat :=
  assign_block C0 (assign_block C0 (zeros C0 8 8) 0 4 4 8 T)
               4 8 0 4 (ctranspose T).

(** The composite operator of one axis. *)
Definition composite_of (r : system_result) (a : axis) : cmat :=
  match a with
  | ax_x => px r
  | ax_y => py r
  | ax_z => pz r
  end.

(** A stand-in for [eigh] with which closed instances of the model are
    written: the eigenvalues 1, 2, 3, 4 and the unit vectors, whatever the
    matrix.  No property of the program rests on it. *)
Definition eigh_sample (matrix : cmat) : vec4 R * vec4 (vec4 C) :=
  ((1, 2, 3, 4),
   ((RtoC 1, C0, C0, C0), (C0, RtoC 1, C0, C0),
    (C0, C0, RtoC 1, C0), (C0, C0, C0, RtoC 1))).

(** What lines 258 and 269-270 make of a 2x2 matrix [T]; lines 271-276 do
    the same for the other two axes. *)
Definition composite_small (T : cmat) : cmat :=
  assign_block C0 (assign_block C0 (zeros C0 4 4) 0 2 2 4 T)
               2 4 0 2 (ctranspose T).

(** Lines 312-320. *)
Definition vacancy_all_lvl (kw : kwargs) : option rmat :=
  let b_vec := kwargs_get (kw_b_vec kw) (0, 0, 1) in
  let epsilon := kwargs_get (kw_epsilon kw) (/ 10 ^ 6) in
  let _system :=
    system epsilon false {| kw_b_vec := Some b_vec; kw_epsilon := None |} in
  let dip_mat := px _system in
  let dim := length dip_mat in
  fill_diagonal (eigs_g (sys _system) ++ eigs_u (sys _system))
                (zeros 0 dim dim).

(** ** Arrays: reading what was built *)

Lemma nth_map_seq {A} (f : nat -> A) (n i : nat) (d : A) :
  (i < n)%nat -> nth i (map f (seq 0 n)) d = f i.
Proof.
  intros Hi.
  rewrite (nth_indep _ d (f 0%nat)) by (rewrite length_map, length_seq; exact Hi).
  rewrite (map_nth f (seq 0 n) 0%nat i), seq_nth by exact Hi.
  reflexivity.
Qed.

Lemma mget_build {A} (d : A) (r c : nat) (f : nat -> nat -> A) (i j : nat) :
  (i < r)%nat -> (j < c)%nat -> mget d (build r c f) i j = f i j.
Proof.
  intros Hi Hj. unfold mget, build.
  rewrite (nth_map_seq _ r i) by exact Hi.
  apply nth_map_seq; exact Hj.
Qed.

Lemma shape_build {A} (r c : nat) (f : nat -> nat -> A) :
  shape (build r c f) r c.
Proof.
  split.
  - unfold build. now rewrite length_map, length_seq.
  - unfold build. apply Forall_forall. intros row Hrow.
    apply in_map_iff in Hrow. destruct Hrow as [i [<- _]].
    now rewrite length_map, length_seq.
Qed.

Lemma shape_ncols {A} (M : list (list A)) (r c : nat) :
  shape M r c -> (0 < r)%nat -> ncols M = c.
Proof.
  intros [Hlen Hrows] Hr. unfold ncols.
  destruct M as [|row M']; simpl in *; [lia|].
  now inversion Hrows.
Qed.

Lemma shape_nrows {A} (M : list (list A)) (r c : nat) :
  shape M r c -> nrows M = r.
Proof. now intros [Hlen _]. Qed.

Lemma shape_row {A} (M : list (list A)) (r c i : nat) :
  shape M r c -> (i < r)%nat -> length (nth i M []) = c.
Proof.
  intros [Hlen Hrows] Hi.
  rewrite Forall_forall in Hrows. apply Hrows, nth_In. lia.
Qed.

(** Two lists of one length with the same entries are equal. *)
Lemma list_ext {A} (d : A) (l1 l2 : list A) :
  length l1 = length l2 ->
  (forall i, (i < length l1)%nat -> nth i l1 d = nth i l2 d) ->
  l1 = l2.
Proof.
  revert l2. induction l1 as [|a l1 IH]; intros [|b l2] Hlen Hnth;
    simpl in *; try discriminate; [reflexivity|].
  f_equal.
  - apply (Hnth 0%nat). lia.
  - apply IH; [lia|]. intros i Hi. apply (Hnth (S i)). lia.
Qed.

(** Two matrices of one shape with the same entries are equal. *)
Lemma mat_ext {A} (d : A) (M N : list (list A)) (r c : nat) :
  shape M r c -> shape N r c ->
  (forall i j, (i < r)%nat -> (j < c)%nat -> mget d M i j = mget d N i j) ->
  M = N.
Proof.
  intros HM HN Hent.
  apply (list_ext []).
  - destruct HM, HN. congruence.
  - intros i Hi. assert (Hir : (i < r)%nat) by (destruct HM; lia).
    apply (list_ext d).
    + now rewrite (shape_row M r c), (shape_row N r c).
    + intros j Hj. rewrite (shape_row M r c) in Hj by assumption.
      apply Hent; assumption.
Qed.

Lemma mread_shape {A} (d : A) (M : list (list A)) (r c i j : nat) :
  shape M r c -> (i < r)%nat -> (j < c)%nat ->
  mread M i j = Some (mget d M i j).
Proof.
  intros HM Hi Hj. unfold mread, mget.
  assert (Hlen : length M = r) by (destruct HM; assumption).
  rewrite (nth_error_nth' M []) by lia.
  apply nth_error_nth'. now rewrite (shape_row M r c).
Qed.

(** A checked write inside the array succeeds, keeps the shape and
    changes the one entry. *)
Lemma mwrite_shape {A} (d : A) (M : list (list A)) (r c i j : nat) (v : A) :
  shape M r c -> (i < r)%nat -> (j < c)%nat ->
  exists M', mwrite d M i j v = Some M' /\ shape M' r c /\
             forall i' j', (i' < r)%nat -> (j' < c)%nat ->
               mget d M' i' j' =
               if (i' =? i)%nat && (j' =? j)%nat then v else mget d M i' j'.
Proof.
  intros HM Hi Hj. unfold mwrite.
  rewrite (shape_nrows M r c HM), (shape_ncols M r c HM) by lia.
  destruct (Nat.ltb_spec i r); [|lia].
  destruct (Nat.ltb_spec j c); [|lia].
  simpl. eexists. split; [reflexivity|]. split.
  - apply shape_build.
  - intros i' j' Hi' Hj'. now rewrite mget_build.
Qed.

(** ** Complex arithmetic by components *)

Lemma Cconj_involutive (z : C) : Cconj (Cconj z) = z.
Proof. destruct z as [a b]. c_solve. Qed.

Lemma Cplus_0_l (z : C) : Cplus C0 z = z.
Proof. destruct z as [a b]. c_solve. Qed.

Lemma Cconj_0 : Cconj C0 = C0.
Proof. c_solve. Qed.

Lemma shape_4x4 {A} (a0 a1 a2 a3 b0 b1 b2 b3 c0 c1 c2 c3 d0 d1 d2 d3 : A) :
  shape [[a0; a1; a2; a3]; [b0; b1; b2; b3];
         [c0; c1; c2; c3]; [d0; d1; d2; d3]] 4 4.
Proof. split; [reflexivity | repeat constructor]. Qed.

(** ** The five terms are Hermitian *)

Lemma H_SO_hermitian (lambda_SO : R) : Hermitian (H_SO lambda_SO).
Proof. unfold H_SO. hermitian_4x4. Qed.

Lemma H_JT_hermitian (xi_x xi_y : R) : Hermitian (H_JT (xi_x, xi_y)).
Proof. unfold H_JT. hermitian_4x4. Qed.

Lemma H_ZL_hermitian (B_vec : vec3) (gammaL f : R) :
  Hermitian (H_ZL B_vec gammaL f).
Proof. unfold H_ZL, mscale. hermitian_4x4. Qed.

Lemma H_ZS_hermitian (B_vec : vec3) (gammaS : R) :
  Hermitian (H_ZS B_vec gammaS).
Proof.
  destruct B_vec as [[Bx By] Bz]. unfold H_ZS, mscale. hermitian_4x4.
Qed.

Lemma H_st_hermitian (alpha beta delta : R) :
  Hermitian (H_st alpha beta delta).
Proof. unfold H_st. hermitian_4x4. Qed.

(** C9: for real parameters, each of [H_SO], [H_JT], [H_ZL], [H_ZS] and
    [H_st] returns a 4x4 matrix that equals its conjugate transpose. *)
Theorem term_builders_hermitian
        (lambda_SO xi_x xi_y gammaL f gammaS alpha beta delta : R)
        (B_vec : vec3) :
  (shape (H_SO lambda_SO) 4 4 /\ Hermitian (H_SO lambda_SO)) /\
  (shape (H_JT (xi_x, xi_y)) 4 4 /\ Hermitian (H_JT (xi_x, xi_y))) /\
  (shape (H_ZL B_vec gammaL f) 4 4 /\ Hermitian (H_ZL B_vec gammaL f)) /\
  (shape (H_ZS B_vec gammaS) 4 4 /\ Hermitian (H_ZS B_vec gammaS)) /\
  (shape (H_st alpha beta delta) 4 4 /\ Hermitian (H_st alpha beta delta)).
Proof.
  repeat split;
    try apply H_SO_hermitian; try apply H_JT_hermitian;
    try apply H_ZL_hermitian; try apply H_ZS_hermitian;
    try apply H_st_hermitian;
    try (destruct B_vec as [[Bx By] Bz]; cbn; reflexivity);
    try (destruct B_vec as [[Bx By] Bz]; cbn; repeat constructor).
Qed.

(** ** The two changes of basis *)

Lemma inv_sqrt_sqr (n : R) :
  0 < n -> (1 / sqrt n) * (1 / sqrt n) = 1 / n.
Proof.
  intros Hn. pose proof (sqrt_lt_R0 n Hn) as Hs.
  pose proof (sqrt_sqrt n (Rlt_le _ _ Hn)) as Hsq.
  rewrite <- Hsq at 3. field. lra.
Qed.

(** C10: [coord_to_lattice] undoes [lattice_to_coord] on every real
    3-vector; over the reals the round trip is exact. *)
Theorem coord_to_lattice_lattice_to_coord (v : vec3) :
  coord_to_lattice (lattice_to_coord v) = v.
Proof.
  destruct v as [[x y] z].
  unfold coord_to_lattice, lattice_to_coord, dot3, _ex, _ey, _ez, scale3,
    vx, vy, vz.
  cbn [fst snd].
  assert (H6 := inv_sqrt_sqr 6 ltac:(lra)).
  assert (H2 := inv_sqrt_sqr 2 ltac:(lra)).
  assert (H3 := inv_sqrt_sqr 3 ltac:(lra)).
  set (a := 1 / sqrt 6) in *. set (b := 1 / sqrt 2) in *.
  set (c := 1 / sqrt 3) in *.
  f_equal; [f_equal|].
  - replace (a * 1 * (a * 1 * x + a * -2 * y + a * 1 * z) +
             b * 1 * (b * 1 * x + b * 0 * y + b * -1 * z) +
             c * 1 * (c * 1 * x + c * 1 * y + c * 1 * z))
      with (a * a * (x - 2 * y + z) + b * b * (x - z) + c * c * (x + y + z))
      by ring.
    rewrite H6, H2, H3. lra.
  - replace (a * -2 * (a * 1 * x + a * -2 * y + a * 1 * z) +
             b * 0 * (b * 1 * x + b * 0 * y + b * -1 * z) +
             c * 1 * (c * 1 * x + c * 1 * y + c * 1 * z))
      with (a * a * (-2 * x + 4 * y - 2 * z) + c * c * (x + y + z))
      by ring.
    rewrite H6, H3. lra.
  - replace (a * 1 * (a * 1 * x + a * -2 * y + a * 1 * z) +
             b * -1 * (b * 1 * x + b * 0 * y + b * -1 * z) +
             c * 1 * (c * 1 * x + c * 1 * y + c * 1 * z))
      with (a * a * (x - 2 * y + z) + b * b * (z - x) + c * c * (x + y + z))
      by ring.
    rewrite H6, H2, H3. lra.
Qed.

(** ** [make_B_vector] *)

Lemma make_B_vector_eq (magnitude : R) (v : vec3) :
  make_B_vector magnitude v =
  (magnitude * vx v / sqnorm3 v, magnitude * vy v / sqnorm3 v,
   magnitude * vz v / sqnorm3 v).
Proof.
  unfold make_B_vector, sqnorm3. cbv zeta.
  rewrite !pow2_abs.
  replace (vx v ^ 2 + vy v ^ 2 + vz v ^ 2)
    with (vx v * vx v + vy v * vy v + vz v * vz v) by ring.
  reflexivity.
Qed.

Lemma sqnorm3_pos (v : vec3) : v <> (0, 0, 0) -> 0 < sqnorm3 v.
Proof.
  destruct v as [[x y] z]. intros Hv. unfold sqnorm3, vx, vy, vz.
  cbn [fst snd].
  destruct (Req_dec x 0) as [Hx|Hx]; [|nra].
  destruct (Req_dec y 0) as [Hy|Hy]; [|nra].
  destruct (Req_dec z 0) as [Hz|Hz]; [|nra].
  subst. now contradiction Hv.
Qed.

(** The vector that comes back has length [|magnitude|] divided by the
    length of the direction: the direction is divided by its squared
    length, not by its length. *)
Lemma make_B_vector_norm (magnitude : R) (v : vec3) :
  v <> (0, 0, 0) ->
  norm3 (make_B_vector magnitude v) = Rabs magnitude / norm3 v.
Proof.
  intros Hv. pose proof (sqnorm3_pos v Hv) as Hpos.
  rewrite make_B_vector_eq.
  assert (Hn : 0 < norm3 v) by (apply sqrt_lt_R0; exact Hpos).
  assert (Hsq : norm3 v * norm3 v = sqnorm3 v)
    by (apply sqrt_sqrt; unfold sqnorm3 in *; lra).
  assert (Habs : Rabs magnitude * Rabs magnitude = magnitude * magnitude).
  { rewrite <- Rabs_mult. apply Rabs_pos_eq. nra. }
  set (q := Rabs magnitude / norm3 v).
  assert (Hq : 0 <= q).
  { apply Rmult_le_pos; [apply Rabs_pos|].
    left. now apply Rinv_0_lt_compat. }
  rewrite <- (sqrt_square q Hq). unfold norm3 at 1. f_equal.
  destruct v as [[x y] z]. unfold q, sqnorm3, vx, vy, vz in *.
  cbn [fst snd] in *.
  transitivity (magnitude * magnitude / (x * x + y * y + z * z)).
  - field. lra.
  - rewrite <- Habs, <- Hsq. field. lra.
Qed.

(** C7: at magnitude 1 and direction [0, 0, 2] the function returns
    [0, 0, 1/2], a vector of length 1/2 and not of length 1. *)
Theorem make_B_vector_not_normalized :
  make_B_vector 1 (0, 0, 2) = (0 / 4, 0 / 4, 2 / 4) /\
  norm3 (make_B_vector 1 (0, 0, 2)) = 1 / 2 /\
  norm3 (make_B_vector 1 (0, 0, 2)) <> 1.
Proof.
  assert (Hval : make_B_vector 1 (0, 0, 2) = (0 / 4, 0 / 4, 2 / 4)).
  { rewrite make_B_vector_eq. unfold sqnorm3, vx, vy, vz. cbn [fst snd].
    f_equal; [f_equal|]; field. }
  assert (Hnorm : norm3 (make_B_vector 1 (0, 0, 2)) = 1 / 2).
  { rewrite Hval. unfold norm3, vx, vy, vz. cbn [fst snd].
    replace (0 / 4 * (0 / 4) + 0 / 4 * (0 / 4) + 2 / 4 * (2 / 4))
      with ((1 / 2) * (1 / 2)) by field.
    apply sqrt_square. lra. }
  repeat split; [exact Hval | exact Hnorm | rewrite Hnorm; lra].
Qed.

(** ** Blocks *)

Lemma shape_assign_block {A} (d : A) (M B : list (list A))
      (r c r0 r1 c0 c1 : nat) :
  shape M r c -> (0 < r)%nat -> shape (assign_block d M r0 r1 c0 c1 B) r c.
Proof.
  intros HM Hr. unfold assign_block.
  rewrite (shape_nrows M r c HM), (shape_ncols M r c HM Hr).
  apply shape_build.
Qed.

Lemma mget_assign_block {A} (d : A) (M B : list (list A))
      (r c r0 r1 c0 c1 i j : nat) :
  shape M r c -> (i < r)%nat -> (j < c)%nat ->
  mget d (assign_block d M r0 r1 c0 c1 B) i j =
  if (r0 <=? i)%nat && (i <? r1)%nat && (c0 <=? j)%nat && (j <? c1)%nat
  then mget d B (i - r0) (j - c0)
  else mget d M i j.
Proof.
  intros HM Hi Hj. unfold assign_block.
  rewrite (shape_nrows M r c HM), (shape_ncols M r c HM) by lia.
  now rewrite mget_build.
Qed.

Lemma mget_zeros {A} (d : A) (r c i j : nat) : mget d (zeros d r c) i j = d.
Proof.
  unfold zeros. destruct (Nat.lt_ge_cases i r) as [Hi|Hi].
  - destruct (Nat.lt_ge_cases j c) as [Hj|Hj].
    + now rewrite mget_build.
    + unfold mget. apply nth_overflow.
      rewrite (shape_row _ r c i (shape_build r c _) Hi). exact Hj.
  - unfold mget. rewrite (nth_overflow (build r c _)).
    + now destruct j.
    + destruct (shape_build r c (fun _ _ : nat => d)) as [-> _]. exact Hi.
Qed.

Lemma shape_slice {A} (d : A) (M : list (list A)) (r0 r1 c0 c1 : nat) :
  shape (slice d M r0 r1 c0 c1) (r1 - r0) (c1 - c0).
Proof. apply shape_build. Qed.

Lemma mget_slice {A} (d : A) (M : list (list A)) (r0 r1 c0 c1 i j : nat) :
  (i < r1 - r0)%nat -> (j < c1 - c0)%nat ->
  mget d (slice d M r0 r1 c0 c1) i j = mget d M (r0 + i) (c0 + j).
Proof. intros Hi Hj. unfold slice. now rewrite mget_build. Qed.

(** ** The manifold blocks *)

Lemma shape_HgL (_B : vec3) (_s : bool) : shape (_HgL _B _s) 4 4.
Proof.
  destruct _B as [[Bx By] Bz], _s; cbn; apply shape_4x4.
Qed.

Lemma shape_HuL (_B : vec3) (_s : bool) : shape (_HuL _B _s) 4 4.
Proof.
  destruct _B as [[Bx By] Bz], _s; cbn; apply shape_4x4.
Qed.

Lemma shape_excited_block (_B : vec3) (_s : bool) :
  shape (madd (diag (map (fun _ => ZPL) (seq 0 4))) (_HuL _B _s)) 4 4.
Proof.
  destruct _B as [[Bx By] Bz], _s; cbn; apply shape_4x4.
Qed.

(** With a false flag the lambdas add the scalar [0], which is adding the
    4x4 zero matrix. *)
Lemma HgL_HuL_without_strain (_B : vec3) :
  _HgL _B false =
  madd (madd (madd _Hg0 (H_ZL _B gamma_L f_g)) (H_ZS _B gamma_S))
       (zeros C0 4 4) /\
  _HuL _B false =
  madd (madd (madd _Hu0 (H_ZL _B gamma_L f_u)) (H_ZS _B gamma_S))
       (zeros C0 4 4).
Proof. destruct _B as [[Bx By] Bz]. split; reflexivity. Qed.

(** The 8x8 matrix of [snv_hamiltonian], entry by entry. *)
Lemma snv_hamiltonian_entries (_b : R) (_s : bool) (kw : kwargs) (i j : nat) :
  (i < 8)%nat -> (j < 8)%nat ->
  let B := make_B_vector _b
             (lattice_to_coord (kwargs_get (kw_b_vec kw) (0, 0, 1))) in
  cget (snv_hamiltonian _b _s kw) i j =
  if (4 <=? i)%nat && (4 <=? j)%nat
  then cget (_HgL B s) (i - 4) (j - 4)
  else if (i <? 4)%nat && (j <? 4)%nat
       then cget (madd (diag (map (fun _ => ZPL) (seq 0 4))) (_HuL B s)) i j
       else C0.
Proof.
  intros Hi Hj B. unfold snv_hamiltonian, cget. fold B.
  assert (Hz : shape (zeros C0 8 8) 8 8) by apply shape_build.
  rewrite (mget_assign_block C0 _ _ 8 8); [| |exact Hi|exact Hj].
  2:{ apply shape_assign_block; [exact Hz|lia]. }
  rewrite (mget_assign_block C0 _ _ 8 8 0 4 0 4 i j Hz Hi Hj).
  rewrite mget_zeros.
  destruct (Nat.leb_spec 4 i), (Nat.leb_spec 4 j),
           (Nat.ltb_spec i 8), (Nat.ltb_spec j 8),
           (Nat.ltb_spec i 4), (Nat.ltb_spec j 4);
    cbn [andb Nat.leb]; try lia; try reflexivity;
    rewrite ?Nat.sub_0_r; reflexivity.
Qed.

Lemma HgL_entry00 (_B : vec3) (_s : bool) :
  fst (cget (_HgL _B _s) 0 0) =
  xi_xg + gamma_S * vz _B + (if _s then alpha_g - delta_g else 0).
Proof.
  destruct _B as [[Bx By] Bz], _s; cbn; c_unfold; unfold vz; cbn [snd]; ring.
Qed.

Lemma HuL_entry00 (_B : vec3) (_s : bool) :
  fst (cget (madd (diag (map (fun _ => ZPL) (seq 0 4))) (_HuL _B _s)) 0 0) =
  ZPL + (xi_xu + gamma_S * vz _B + (if _s then alpha_u - delta_u else 0)).
Proof.
  destruct _B as [[Bx By] Bz], _s; cbn; c_unfold; unfold vz; cbn [snd]; ring.
Qed.

Lemma snv_hamiltonian_ground_block (_b : R) (_s : bool) (kw : kwargs) :
  slice C0 (snv_hamiltonian _b _s kw) 4 8 4 8 =
  _HgL (make_B_vector _b
          (lattice_to_coord (kwargs_get (kw_b_vec kw) (0, 0, 1)))) s.
Proof.
  apply (mat_ext C0 _ _ 4 4).
  - apply (shape_slice C0 _ 4 8 4 8).
  - apply shape_HgL.
  - intros i j Hi Hj. rewrite mget_slice by lia.
    fold (cget (snv_hamiltonian _b _s kw) (4 + i) (4 + j)).
    rewrite snv_hamiltonian_entries by lia. cbv zeta.
    replace (4 + i - 4)%nat with i by lia.
    replace (4 + j - 4)%nat with j by lia.
    reflexivity.
Qed.

Lemma snv_hamiltonian_excited_block (_b : R) (_s : bool) (kw : kwargs) :
  slice C0 (snv_hamiltonian _b _s kw) 0 4 0 4 =
  madd (diag (map (fun _ => ZPL) (seq 0 4)))
       (_HuL (make_B_vector _b
                (lattice_to_coord (kwargs_get (kw_b_vec kw) (0, 0, 1)))) s).
Proof.
  apply (mat_ext C0 _ _ 4 4).
  - apply (shape_slice C0 _ 0 4 0 4).
  - apply shape_excited_block.
  - intros i j Hi Hj. rewrite mget_slice by lia.
    fold (cget (snv_hamiltonian _b _s kw) (0 + i) (0 + j)).
    rewrite snv_hamiltonian_entries by lia. cbv zeta.
    destruct (Nat.leb_spec 4 (0 + i)); [lia|].
    destruct (Nat.ltb_spec (0 + i) 4); [|lia].
    destruct (Nat.ltb_spec (0 + j) 4); [|lia].
    reflexivity.
Qed.

(** ** The strain flag *)

Lemma strain_ground_nonzero : alpha_g - delta_g <> 0.
Proof.
  unfold alpha_g, delta_g, pi. pose proof PI_RGT_0. lra.
Qed.

Lemma strain_excited_nonzero : alpha_u - delta_u <> 0.
Proof.
  unfold alpha_u, delta_u, pi. pose proof PI_RGT_0. lra.
Qed.

(** C1: the argument [_s] never reaches the blocks.  Whatever the field,
    [snv_hamiltonian], [system] and [system_small] return with [_s] true
    what they return with [_s] false; the blocks of [snv_hamiltonian] at a
    true [_s] are the sums without [H_st], and differ from the sums with
    [H_st]. *)
Theorem strain_flag_is_ignored (_b : R) (kw : kwargs) :
  let B := make_B_vector _b
             (lattice_to_coord (kwargs_get (kw_b_vec kw) (0, 0, 1))) in
  let excited _s := madd (diag (map (fun _ => ZPL) (seq 0 4))) (_HuL B _s) in
  snv_hamiltonian _b true kw = snv_hamiltonian _b false kw /\
  system _b true kw = system _b false kw /\
  system_small _b true = system_small _b false /\
  slice C0 (snv_hamiltonian _b true kw) 4 8 4 8 = _HgL B false /\
  slice C0 (snv_hamiltonian _b true kw) 4 8 4 8 <> _HgL B true /\
  slice C0 (snv_hamiltonian _b true kw) 0 4 0 4 = excited false /\
  slice C0 (snv_hamiltonian _b true kw) 0 4 0 4 <> excited true.
Proof.
  intros B excited.
  split; [reflexivity|]. split; [reflexivity|]. split; [reflexivity|].
  rewrite snv_hamiltonian_ground_block, snv_hamiltonian_excited_block.
  fold B. fold (excited s). unfold s.
  split; [reflexivity|]. split; [|split; [reflexivity|]].
  - intros Heq.
    apply (f_equal (fun M => fst (cget M 0 0))) in Heq.
    rewrite !HgL_entry00 in Heq. pose proof strain_ground_nonzero. lra.
  - intros Heq.
    apply (f_equal (fun M => fst (cget M 0 0))) in Heq.
    unfold excited in Heq.
    rewrite !HuL_entry00 in Heq. pose proof strain_excited_nonzero. lra.
Qed.

(** ** The frame of the field direction *)

(** C5: [snv_hamiltonian] sends the direction through [lattice_to_coord]
    before it builds the field, [system] uses the direction as it comes.
    The blocks of [snv_hamiltonian] at a direction are the matrices that
    [system] builds at the converted direction. *)
Theorem snv_hamiltonian_blocks_are_system_blocks_converted
        (_b : R) (_s : bool) (kw : kwargs) :
  let kw' := {| kw_b_vec :=
                  Some (lattice_to_coord
                          (kwargs_get (kw_b_vec kw) (0, 0, 1)));
                kw_epsilon := kw_epsilon kw |} in
  slice C0 (snv_hamiltonian _b _s kw) 0 4 0 4 = system_HuT _b _s kw' /\
  slice C0 (snv_hamiltonian _b _s kw) 4 8 4 8 = system_HgT _b _s kw'.
Proof.
  intros kw'.
  rewrite snv_hamiltonian_ground_block, snv_hamiltonian_excited_block.
  split; reflexivity.
Qed.

(** ** Shapes of the eigen-decomposition and of the dipole transform *)

Lemma length_insert_by (w : list R) (i : nat) (l : list nat) :
  length (insert_by w i l) = S (length l).
Proof.
  induction l as [|j t IH]; simpl; [reflexivity|].
  destruct (Rle_dec (nth j w 0) (nth i w 0)); simpl; now rewrite ?IH.
Qed.

Lemma length_argsort (w : list R) : length (argsort w) = length w.
Proof.
  unfold argsort.
  assert (Hgen : forall xs acc,
             length (fold_left (fun acc i => insert_by w i acc) xs acc) =
             (length xs + length acc)%nat).
  { induction xs as [|x xs IH]; intros acc; simpl; [reflexivity|].
    rewrite IH, length_insert_by. lia. }
  rewrite Hgen, length_seq. simpl. lia.
Qed.

Lemma shape_take_cols {A} (d : A) (M : list (list A)) (idx : list nat) :
  shape (take_cols d M idx) (length M) (length idx).
Proof.
  unfold take_cols, take. split.
  - now rewrite length_map.
  - apply Forall_forall. intros row Hrow.
    apply in_map_iff in Hrow. destruct Hrow as [row' [<- _]].
    now rewrite length_map.
Qed.

Lemma get_eigs_length (M : cmat) : length (fst (get_eigs M)) = 4%nat.
Proof.
  unfold get_eigs, take. cbn [fst]. rewrite length_map, length_argsort.
  reflexivity.
Qed.

Lemma get_eigs_shape (M : cmat) : shape (snd (get_eigs M)) 4 4.
Proof.
  unfold get_eigs. cbn [snd].
  pose proof (shape_take_cols C0 (map v4list (v4list (snd (eigh M))))
                (argsort (v4list (fst (eigh M))))) as Hs.
  rewrite length_argsort in Hs. exact Hs.
Qed.

Lemma shape_mdot (A B : cmat) (r k : nat) :
  shape A r k -> shape (mdot A B) r (ncols B).
Proof.
  intros [Hlen _]. unfold mdot. split.
  - now rewrite length_map.
  - apply Forall_forall. intros row Hrow.
    apply in_map_iff in Hrow. destruct Hrow as [row' [<- _]].
    now rewrite length_map, length_seq.
Qed.

Lemma shape_mconj (A : cmat) (r c : nat) : shape A r c -> shape (mconj A) r c.
Proof.
  intros [Hlen Hrows]. unfold mconj. split.
  - now rewrite length_map.
  - apply Forall_forall. intros row Hrow.
    apply in_map_iff in Hrow. destruct Hrow as [row' [<- Hin]].
    rewrite length_map. rewrite Forall_forall in Hrows. now apply Hrows.
Qed.

Lemma cget_mconj (A : cmat) (i j : nat) :
  cget (mconj A) i j = Cconj (cget A i j).
Proof.
  unfold cget, mget, mconj.
  change (@nil C) with (map Cconj []).
  rewrite (map_nth (map Cconj) A [] i).
  replace C0 with (Cconj C0) at 1 by apply Cconj_0.
  apply map_nth.
Qed.

Lemma shape_ctranspose (A : cmat) (r c : nat) :
  shape A r c -> (0 < r)%nat -> shape (ctranspose A) c r.
Proof.
  intros HA Hr. unfold ctranspose, transpose.
  pose proof (shape_mconj A r c HA) as HA'.
  rewrite (shape_nrows _ r c HA'), (shape_ncols _ r c HA' Hr).
  apply shape_build.
Qed.

Lemma cget_ctranspose (A : cmat) (r c i j : nat) :
  shape A r c -> (i < c)%nat -> (j < r)%nat ->
  cget (ctranspose A) i j = Cconj (cget A j i).
Proof.
  intros HA Hi Hj. unfold ctranspose, transpose, cget.
  pose proof (shape_mconj A r c HA) as HA'.
  rewrite (shape_nrows _ r c HA'), (shape_ncols _ r c HA') by lia.
  rewrite mget_build by assumption.
  apply cget_mconj.
Qed.

Lemma shape_dipole_matel (a : axis) : shape (dipole_matel a) 4 4.
Proof. destruct a; cbn; apply shape_4x4. Qed.

(** The transformed dipole matrix of one axis is 4x4. *)
Lemma shape_transformed (Vg Vu : cmat) (a : axis) :
  shape Vg 4 4 -> shape Vu 4 4 ->
  shape (mdot (ctranspose Vg) (mdot (dipole_matel a) Vu)) 4 4.
Proof.
  intros Hg Hu.
  pose proof (shape_mdot (dipole_matel a) Vu 4 4 (shape_dipole_matel a)) as H1.
  rewrite (shape_ncols Vu 4 4 Hu) in H1 by lia.
  pose proof (shape_mdot (ctranspose Vg) (mdot (dipole_matel a) Vu) 4 4
                (shape_ctranspose Vg 4 4 Hg ltac:(lia))) as H2.
  rewrite (shape_ncols _ 4 4 H1) in H2 by lia.
  exact H2.
Qed.

(** ** The composite dipole operators *)

Lemma shape_composite (T : cmat) : shape (composite T) 8 8.
Proof.
  unfold composite.
  apply shape_assign_block; [|lia].
  apply shape_assign_block; [|lia].
  apply shape_build.
Qed.

Lemma composite_entries (T : cmat) (i j : nat) :
  shape T 4 4 -> (i < 8)%nat -> (j < 8)%nat ->
  cget (composite T) i j =
  if (i <? 4)%nat && (4 <=? j)%nat then cget T i (j - 4)
  else if (4 <=? i)%nat && (j <? 4)%nat then Cconj (cget T j (i - 4))
       else C0.
Proof.
  intros HT Hi Hj. unfold composite, cget.
  assert (Hz : shape (zeros C0 8 8) 8 8) by apply shape_build.
  rewrite (mget_assign_block C0 _ _ 8 8); [| |exact Hi|exact Hj].
  2:{ apply shape_assign_block; [exact Hz|lia]. }
  rewrite (mget_assign_block C0 _ _ 8 8 0 4 4 8 i j Hz Hi Hj).
  rewrite mget_zeros.
  destruct (Nat.leb_spec 4 i), (Nat.leb_spec 4 j),
           (Nat.ltb_spec i 8), (Nat.ltb_spec j 8),
           (Nat.ltb_spec i 4), (Nat.ltb_spec j 4);
    cbn [andb Nat.leb]; try lia; try reflexivity.
  - rewrite Nat.sub_0_r.
    apply (cget_ctranspose T 4 4); [exact HT|lia|lia].
  - rewrite Nat.sub_0_r. reflexivity.
Qed.

Lemma composite_hermitian (T : cmat) : shape T 4 4 -> Hermitian (composite T).
Proof.
  intros HT. unfold Hermitian.
  apply (mat_ext C0 _ _ 8 8).
  - apply shape_composite.
  - apply shape_ctranspose; [apply shape_composite|lia].
  - intros i j Hi Hj.
    fold (cget (composite T) i j).
    fold (cget (ctranspose (composite T)) i j).
    rewrite (cget_ctranspose _ 8 8) by (try apply shape_composite; lia).
    rewrite !composite_entries by assumption.
    destruct (Nat.leb_spec 4 i), (Nat.leb_spec 4 j),
             (Nat.ltb_spec i 4), (Nat.ltb_spec j 4);
      cbn [andb]; try lia;
      rewrite ?Cconj_involutive, ?Cconj_0; reflexivity.
Qed.

Lemma system_px (_b : R) (_s : bool) (kw : kwargs) :
  px (system _b _s kw) = composite (dips (sys (system _b _s kw)) ax_x) /\
  py (system _b _s kw) = composite (dips (sys (system _b _s kw)) ax_y) /\
  pz (system _b _s kw) = composite (dips (sys (system _b _s kw)) ax_z).
Proof. repeat split; reflexivity. Qed.

Lemma manifold_fields (HT_g HT_u : cmat) (D : axis -> cmat) :
  eigs_g (manifold HT_g HT_u D) = fst (get_eigs HT_g) /\
  eigs_u (manifold HT_g HT_u D) = fst (get_eigs HT_u) /\
  vecs_g (manifold HT_g HT_u D) = snd (get_eigs HT_g) /\
  vecs_u (manifold HT_g HT_u D) = snd (get_eigs HT_u) /\
  forall a, dips (manifold HT_g HT_u D) a =
            mdot (ctranspose (snd (get_eigs HT_g)))
                 (mdot (D a) (snd (get_eigs HT_u))).
Proof. repeat split; reflexivity. Qed.

Lemma slice_composite (T : cmat) :
  shape T 4 4 ->
  slice C0 (composite T) 0 4 4 8 = T /\
  slice C0 (composite T) 4 8 0 4 = ctranspose T /\
  slice C0 (composite T) 0 4 0 4 = zeros C0 4 4 /\
  slice C0 (composite T) 4 8 4 8 = zeros C0 4 4.
Proof.
  intros HT.
  assert (Hent : forall r0 c0 i j, (r0 + i < 8)%nat -> (c0 + j < 8)%nat ->
             (i < 4)%nat -> (j < 4)%nat ->
             mget C0 (slice C0 (composite T) r0 (r0 + 4) c0 (c0 + 4)) i j =
             cget (composite T) (r0 + i) (c0 + j)).
  { intros r0 c0 i j _ _ Hi Hj. rewrite mget_slice by lia. reflexivity. }
  split; [|split; [|split]].
  - apply (mat_ext C0 _ _ 4 4);
      [apply (shape_slice C0 _ 0 4 4 8) | exact HT |].
    intros i j Hi Hj. rewrite (Hent 0 4)%nat by lia.
    rewrite composite_entries by (try exact HT; lia).
    destruct (Nat.ltb_spec (0 + i) 4); [|lia].
    destruct (Nat.leb_spec 4 (4 + j)); [|lia].
    cbn [andb]. replace (4 + j - 4)%nat with j by lia. reflexivity.
  - apply (mat_ext C0 _ _ 4 4);
      [apply (shape_slice C0 _ 4 8 0 4)
      | apply shape_ctranspose; [exact HT|lia] |].
    intros i j Hi Hj. rewrite (Hent 4 0)%nat by lia.
    rewrite composite_entries by (try exact HT; lia).
    destruct (Nat.ltb_spec (4 + i) 4); [lia|].
    destruct (Nat.leb_spec 4 (4 + i)); [|lia].
    destruct (Nat.ltb_spec (0 + j) 4); [|lia].
    cbn [andb]. replace (4 + i - 4)%nat with i by lia.
    fold (cget (ctranspose T) i j).
    now rewrite (cget_ctranspose T 4 4) by (try exact HT; lia).
  - apply (mat_ext C0 _ _ 4 4);
      [apply (shape_slice C0 _ 0 4 0 4) | apply shape_build |].
    intros i j Hi Hj. rewrite (Hent 0 0)%nat by lia.
    rewrite composite_entries by (try exact HT; lia).
    rewrite mget_zeros.
    destruct (Nat.ltb_spec (0 + i) 4); [|lia].
    destruct (Nat.leb_spec 4 (0 + j)); [lia|].
    destruct (Nat.leb_spec 4 (0 + i)); [lia|].
    reflexivity.
  - apply (mat_ext C0 _ _ 4 4);
      [apply (shape_slice C0 _ 4 8 4 8) | apply shape_build |].
    intros i j Hi Hj. rewrite (Hent 4 4)%nat by lia.
    rewrite composite_entries by (try exact HT; lia).
    rewrite mget_zeros.
    destruct (Nat.ltb_spec (4 + i) 4); [lia|].
    destruct (Nat.ltb_spec (4 + j) 4); [lia|].
    cbn [andb]. now rewrite andb_false_r.
Qed.

(** C6: for a direction other than zero, [system] diagonalises with
    [get_eigs] the two blocks it builds from the magnitude and the
    direction, and each of [px], [py], [pz] that it returns is an 8x8
    matrix equal to its conjugate transpose; its block at rows 0-3, columns
    4-7 is the transformed matrix [Vg^dagger . (D . Vu)] of the axis, with
    [Vg] and [Vu] the eigenvector matrices of the ground and of the excited
    block, its block at rows 4-7, columns 0-3 the conjugate transpose of
    that matrix, and its two diagonal blocks are zero. *)
Theorem system_dipole_operators (_b : R) (_s : bool) (kw : kwargs) (a : axis) :
  kwargs_get (kw_b_vec kw) (0, 0, 1) <> (0, 0, 0) ->
  let B := make_B_vector _b (kwargs_get (kw_b_vec kw) (0, 0, 1)) in
  let HgT := _HgL B s in
  let HuT := madd (diag (map (fun _ => ZPL) (seq 0 4))) (_HuL B s) in
  let r := system _b _s kw in
  let P := composite_of r a in
  let T := mdot (ctranspose (snd (get_eigs HgT)))
                (mdot (dipole_matel a) (snd (get_eigs HuT))) in
  (eigs_g (sys r) = fst (get_eigs HgT) /\
   eigs_u (sys r) = fst (get_eigs HuT) /\
   vecs_g (sys r) = snd (get_eigs HgT) /\
   vecs_u (sys r) = snd (get_eigs HuT) /\
   dips (sys r) a = T) /\
  shape T 4 4 /\
  shape P 8 8 /\ Hermitian P /\
  slice C0 P 0 4 4 8 = T /\
  slice C0 P 4 8 0 4 = ctranspose T /\
  slice C0 P 0 4 0 4 = zeros C0 4 4 /\
  slice C0 P 4 8 4 8 = zeros C0 4 4.
Proof.
  intros _ B HgT HuT r P T.
  assert (Hsys : sys r = manifold HgT HuT dipole_matel).
  { unfold r, system, system_HgT, system_HuT, system_B. cbn [sys].
    reflexivity. }
  destruct (manifold_fields HgT HuT dipole_matel)
    as [Heg [Heu [Hvg [Hvu Hd]]]].
  rewrite <- Hsys in Heg, Heu, Hvg, Hvu, Hd.
  assert (HdT : dips (sys r) a = T) by apply Hd.
  assert (HP : P = composite T).
  { rewrite <- HdT. unfold P, r.
    destruct (system_px _b _s kw) as [Hx [Hy Hz]].
    destruct a; assumption. }
  assert (HT : shape T 4 4).
  { apply shape_transformed; apply get_eigs_shape. }
  split; [repeat split; assumption|].
  split; [exact HT|].
  rewrite HP.
  split; [apply shape_composite|].
  split; [apply composite_hermitian; exact HT|].
  apply slice_composite; exact HT.
Qed.

(** ** Loop invariants *)

Lemma for_each_seq_from {S} (body : nat -> S -> option S)
      (P : nat -> S -> Prop) (n a : nat) (s0 : S) :
  P a s0 ->
  (forall k s, (a <= k < a + n)%nat -> P k s ->
               exists s', body k s = Some s' /\ P (Datatypes.S k) s') ->
  exists s', for_each (seq a n) body s0 = Some s' /\ P (a + n)%nat s'.
Proof.
  revert a s0. induction n as [|n IH]; intros a s0 H0 Hstep.
  - exists s0. rewrite Nat.add_0_r. now split.
  - destruct (Hstep a s0 ltac:(lia) H0) as [s1 [Hb H1]].
    destruct (IH (Datatypes.S a) s1 H1) as [s' [Hf Hn]].
    { intros k s Hk. apply Hstep. lia. }
    exists s'. split.
    + simpl. rewrite Hb. exact Hf.
    + now replace (a + Datatypes.S n)%nat with (Datatypes.S a + n)%nat by lia.
Qed.

(** A loop over [range(n)] that keeps an invariant indexed by the number
    of rounds done does not raise and ends in the invariant at [n]. *)
Lemma for_each_seq_inv {S} (body : nat -> S -> option S)
      (P : nat -> S -> Prop) (n : nat) (s0 : S) :
  P 0%nat s0 ->
  (forall k s, (k < n)%nat -> P k s ->
               exists s', body k s = Some s' /\ P (Datatypes.S k) s') ->
  exists s', for_each (seq 0 n) body s0 = Some s' /\ P n s'.
Proof.
  intros H0 Hstep.
  apply (for_each_seq_from body P n 0 s0 H0).
  intros k s Hk. apply Hstep. lia.
Qed.

Lemma for_each_enumerate_from {S X} (body : nat * X -> S -> option S)
      (P : nat -> S -> Prop) (xs : list X) (a : nat) (s0 : S) :
  P a s0 ->
  (forall k x s, nth_error xs k = Some x -> P (a + k)%nat s ->
                 exists s', body ((a + k)%nat, x) s = Some s' /\
                            P (Datatypes.S (a + k)) s') ->
  exists s', for_each (combine (seq a (length xs)) xs) body s0 = Some s' /\
             P (a + length xs)%nat s'.
Proof.
  revert a s0. induction xs as [|x xs IH]; intros a s0 H0 Hstep.
  - exists s0. simpl. rewrite Nat.add_0_r. now split.
  - destruct (Hstep 0%nat x s0 eq_refl) as [s1 [Hb H1]].
    { now rewrite Nat.add_0_r. }
    rewrite Nat.add_0_r in Hb, H1.
    destruct (IH (Datatypes.S a) s1 H1) as [s' [Hf Hn]].
    { intros k y s Hk HP.
      replace (Datatypes.S a + k)%nat with (a + Datatypes.S k)%nat in * by lia.
      now apply Hstep. }
    exists s'. split.
    + simpl. rewrite Hb. exact Hf.
    + simpl length.
      now replace (a + Datatypes.S (length xs))%nat
        with (Datatypes.S a + length xs)%nat by lia.
Qed.

(** The same for a loop over [enumerate(xs)]. *)
Lemma for_each_enumerate_inv {S X} (body : nat * X -> S -> option S)
      (P : nat -> S -> Prop) (xs : list X) (s0 : S) :
  P 0%nat s0 ->
  (forall k x s, nth_error xs k = Some x -> P k s ->
                 exists s', body (k, x) s = Some s' /\ P (Datatypes.S k) s') ->
  exists s', for_each (enumerate xs) body s0 = Some s' /\ P (length xs) s'.
Proof.
  intros H0 Hstep.
  apply (for_each_enumerate_from body P xs 0 s0 H0).
  intros k x s Hk. apply Hstep. exact Hk.
Qed.

(** ** Filling the diagonal *)

Lemma fill_diagonal_spec (ens : list R) (H : rmat) (n : nat) :
  shape H n n -> (length ens <= n)%nat ->
  exists H', fill_diagonal ens H = Some H' /\ shape H' n n /\
    forall i j, (i < n)%nat -> (j < n)%nat ->
      rget H' i j =
      if (i =? j)%nat && (i <? length ens)%nat then nth i ens 0
      else rget H i j.
Proof.
  intros HH Hlen. unfold fill_diagonal.
  pose (P := fun (k : nat) (M : rmat) =>
               shape M n n /\
               forall i j, (i < n)%nat -> (j < n)%nat ->
                 rget M i j =
                 if (i =? j)%nat && (i <? k)%nat then nth i ens 0
                 else rget H i j).
  destruct (for_each_enumerate_inv
              (fun ik H => let '(i, k) := ik in mwrite 0 H i i k) P ens H)
    as [H' [Hrun [Hshape Hent]]].
  - split; [exact HH|]. intros i j _ _.
    replace (i <? 0)%nat with false by (symmetry; apply Nat.ltb_ge; lia).
    now rewrite andb_false_r.
  - intros k x M Hk [HM HMent].
    assert (Hkn : (k < n)%nat).
    { assert (k < length ens)%nat by (apply nth_error_Some; congruence).
      lia. }
    destruct (mwrite_shape 0 M n n k k x HM Hkn Hkn) as [M' [Hw [HM' Hent']]].
    exists M'. split; [exact Hw|]. split; [exact HM'|].
    intros i j Hi Hj. unfold rget in *. rewrite Hent' by assumption.
    rewrite HMent by assumption.
    assert (Hx : nth k ens 0 = x) by (now apply nth_error_nth).
    destruct (Nat.eqb_spec i k), (Nat.eqb_spec j k), (Nat.eqb_spec i j),
             (Nat.ltb_spec i k), (Nat.ltb_spec i (Datatypes.S k));
      cbn [andb]; subst; try lia; try reflexivity.
  - exists H'. split; [exact Hrun|]. split; [exact Hshape|]. exact Hent.
Qed.

(** ** The enumerated product basis *)

Lemma length_onehot (dim n : nat) : length (onehot dim n) = dim.
Proof. unfold onehot. now rewrite length_map, length_seq. Qed.

Lemma nth_error_onehot (dim n m : nat) :
  (m < dim)%nat ->
  nth_error (onehot dim n) m = Some (if negb (m =? n)%nat then 0 else 1)%nat.
Proof.
  intros Hm. unfold onehot.
  rewrite nth_error_map, nth_error_seq.
  destruct (Nat.ltb_spec m dim); [reflexivity|lia].
Qed.

Lemma onehot_inj (dim a b : nat) :
  (a < dim)%nat -> onehot dim a = onehot dim b -> a = b.
Proof.
  intros Ha Heq.
  pose proof (nth_error_onehot dim a a Ha) as H1.
  pose proof (nth_error_onehot dim b a Ha) as H2.
  rewrite Heq, H2 in H1. rewrite Nat.eqb_refl in H1.
  destruct (Nat.eqb_spec a b); [assumption|discriminate].
Qed.

Lemma length_make_base (dim : nat) : length (make_base dim) = (2 * dim)%nat.
Proof.
  unfold make_base. cbn [seq map concat].
  rewrite !length_app, !length_map, !length_seq. simpl. lia.
Qed.

Lemma nth_error_make_base (dim k : nat) :
  (k < 2 * dim)%nat ->
  nth_error (make_base dim) k =
  Some (onehot dim (k mod dim), (k / dim)%nat).
Proof.
  intros Hk. unfold make_base. cbn [seq map concat Nat.eqb].
  rewrite app_nil_r.
  destruct (Nat.lt_ge_cases k dim) as [Hlt|Hge].
  - rewrite nth_error_app1 by (now rewrite length_map, length_seq).
    rewrite nth_error_map, nth_error_seq.
    destruct (Nat.ltb_spec k dim); [|lia]. cbn [option_map Nat.add].
    now rewrite Nat.mod_small, Nat.div_small.
  - rewrite nth_error_app2 by (now rewrite length_map, length_seq).
    rewrite length_map, length_seq.
    rewrite nth_error_map, nth_error_seq.
    destruct (Nat.ltb_spec (k - dim) dim); [|lia]. cbn [option_map Nat.add].
    assert (Hq : (k / dim = 1)%nat).
    { symmetry. apply (Nat.div_unique k dim 1 (k - dim)); lia. }
    assert (Hr : (k mod dim = k - dim)%nat).
    { symmetry. apply (Nat.mod_unique k dim 1 (k - dim)); lia. }
    now rewrite Hq, Hr.
Qed.

Lemma length_make_snv_base (dim : nat) : length (make_snv_base dim) = dim.
Proof. unfold make_snv_base. now rewrite length_map, length_seq. Qed.

Lemma nth_error_make_snv_base (dim n : nat) :
  (n < dim)%nat -> nth_error (make_snv_base dim) n = Some (onehot dim n).
Proof.
  intros Hn. unfold make_snv_base.
  rewrite nth_error_map, nth_error_seq.
  destruct (Nat.ltb_spec n dim); [reflexivity|lia].
Qed.

(** [l.index(x)] is the position of [x] when nothing before it equals
    [x]. *)
Lemma list_index_first {A} (eq_dec : forall a b : A, {a = b} + {a <> b})
      (l : list A) (x : A) (i : nat) :
  nth_error l i = Some x ->
  (forall j y, (j < i)%nat -> nth_error l j = Some y -> y <> x) ->
  list_index eq_dec x l = Some i.
Proof.
  revert i. induction l as [|a l IH]; intros i Hi Hbefore.
  - destruct i; discriminate.
  - destruct i as [|i]; simpl in *.
    + injection Hi as ->. destruct (eq_dec x x); [reflexivity|contradiction].
    + destruct (eq_dec a x) as [Heq|Hne].
      * exfalso. apply (Hbefore 0%nat a); [lia|reflexivity|exact Heq].
      * rewrite (IH i Hi); [reflexivity|].
        intros j y Hj Hy. apply (Hbefore (Datatypes.S j) y); [lia|exact Hy].
Qed.

Lemma list_index_snv_base (dim n : nat) :
  (n < dim)%nat ->
  list_index occupation_eq_dec (onehot dim n) (make_snv_base dim) = Some n.
Proof.
  intros Hn. apply list_index_first.
  - now apply nth_error_make_snv_base.
  - intros j y Hj Hy Heq.
    rewrite nth_error_make_snv_base in Hy by lia.
    injection Hy as <-. apply onehot_inj in Heq; lia.
Qed.

Lemma list_index_base (dim n label : nat) :
  (n < dim)%nat -> (label < 2)%nat ->
  list_index base_state_eq_dec (onehot dim n, label) (make_base dim) =
  Some (label * dim + n)%nat.
Proof.
  intros Hn Hlabel.
  assert (Hq : ((label * dim + n) / dim = label)%nat).
  { rewrite Nat.div_add_l by lia. rewrite Nat.div_small by lia. lia. }
  assert (Hr : ((label * dim + n) mod dim = n)%nat).
  { rewrite Nat.add_comm, Nat.Div0.mod_add. now apply Nat.mod_small. }
  apply list_index_first.
  - rewrite nth_error_make_base by nia. now rewrite Hq, Hr.
  - intros j y Hj Hy Heq.
    rewrite nth_error_make_base in Hy by nia.
    injection Hy as <-. injection Heq as Hocc Hlab.
    apply onehot_inj in Hocc; [|apply Nat.mod_upper_bound; lia].
    pose proof (Nat.div_mod_eq j dim). nia.
Qed.

(** ** [get_eigs] orders the eigenvalues *)

Lemma HdRel_insert_by (w : list R) (a i : nat) (l : list nat) :
  HdRel (fun p q => nth p w 0 <= nth q w 0) a l ->
  nth a w 0 <= nth i w 0 ->
  HdRel (fun p q => nth p w 0 <= nth q w 0) a (insert_by w i l).
Proof.
  intros Hhd Hai. destruct l as [|j t]; simpl.
  - now constructor.
  - destruct (Rle_dec (nth j w 0) (nth i w 0)); constructor.
    + now inversion Hhd.
    + exact Hai.
Qed.

Lemma Sorted_insert_by (w : list R) (i : nat) (l : list nat) :
  Sorted (fun p q => nth p w 0 <= nth q w 0) l ->
  Sorted (fun p q => nth p w 0 <= nth q w 0) (insert_by w i l).
Proof.
  induction l as [|j t IH]; intros Hs; simpl.
  - repeat constructor.
  - inversion Hs as [|? ? Hst Hhd]; subst.
    destruct (Rle_dec (nth j w 0) (nth i w 0)) as [Hle|Hgt].
    + constructor; [now apply IH|]. now apply HdRel_insert_by.
    + constructor; [exact Hs|]. constructor. lra.
Qed.

Lemma Sorted_argsort (w : list R) :
  Sorted (fun p q => nth p w 0 <= nth q w 0) (argsort w).
Proof.
  unfold argsort.
  assert (Hgen : forall xs acc,
             Sorted (fun p q => nth p w 0 <= nth q w 0) acc ->
             Sorted (fun p q => nth p w 0 <= nth q w 0)
                    (fold_left (fun acc i => insert_by w i acc) xs acc)).
  { induction xs as [|x xs IH]; intros acc Hacc; simpl; [exact Hacc|].
    apply IH. now apply Sorted_insert_by. }
  apply Hgen. constructor.
Qed.

Lemma Sorted_take (w : list R) (idx : list nat) :
  Sorted (fun p q => nth p w 0 <= nth q w 0) idx ->
  Sorted Rle (take 0 w idx).
Proof.
  unfold take. induction idx as [|i t IH]; intros Hs; simpl.
  - constructor.
  - inversion Hs as [|? ? Hst Hhd]; subst. constructor; [now apply IH|].
    destruct t as [|j t']; simpl; constructor. now inversion Hhd.
Qed.

(** The eigenvalues that [get_eigs] returns ascend. *)
Lemma get_eigs_ascending (M : cmat) : Sorted Rle (fst (get_eigs M)).
Proof.
  unfold get_eigs. cbn [fst]. apply Sorted_take, Sorted_argsort.
Qed.

Lemma Permutation_insert_by (w : list R) (i : nat) (l : list nat) :
  Permutation (insert_by w i l) (i :: l).
Proof.
  induction l as [|j t IH]; simpl; [reflexivity|].
  destruct (Rle_dec (nth j w 0) (nth i w 0)); [|reflexivity].
  rewrite IH. apply perm_swap.
Qed.

Lemma Permutation_argsort (w : list R) :
  Permutation (argsort w) (seq 0 (length w)).
Proof.
  unfold argsort.
  assert (Hgen : forall xs acc,
             Permutation (fold_left (fun acc i => insert_by w i acc) xs acc)
                         (xs ++ acc)).
  { induction xs as [|x xs IH]; intros acc; simpl; [reflexivity|].
    rewrite IH, Permutation_insert_by. symmetry. apply Permutation_middle. }
  rewrite Hgen. now rewrite app_nil_r.
Qed.

Lemma take_all (w : list R) : take 0 w (seq 0 (length w)) = w.
Proof.
  unfold take. apply (list_ext 0).
  - now rewrite length_map, length_seq.
  - intros i Hi. rewrite length_map, length_seq in Hi.
    now rewrite nth_map_seq.
Qed.

(** [get_eigs] keeps the eigenvalues of [eigh] and only reorders them. *)
Lemma get_eigs_permutation (M : cmat) :
  Permutation (fst (get_eigs M)) (v4list (fst (eigh M))).
Proof.
  unfold get_eigs. cbn [fst].
  rewrite <- (take_all (v4list (fst (eigh M)))) at 3.
  unfold take. apply Permutation_map, Permutation_argsort.
Qed.

(** ** The enlarged energy operator *)

Lemma length_px (_b : R) (_s : bool) (kw : kwargs) :
  length (px (system _b _s kw)) = 8%nat.
Proof.
  destruct (system_px _b _s kw) as [-> _].
  now destruct (shape_composite (dips (sys (system _b _s kw)) ax_x)).
Qed.

Lemma system_eigs (_b : R) (_s : bool) (kw : kwargs) :
  length (eigs_g (sys (system _b _s kw))) = 4%nat /\
  length (eigs_u (sys (system _b _s kw))) = 4%nat /\
  Sorted Rle (eigs_g (sys (system _b _s kw))) /\
  Sorted Rle (eigs_u (sys (system _b _s kw))).
Proof.
  unfold system. cbn [sys].
  destruct (manifold_fields (system_HgT _b _s kw) (system_HuT _b _s kw)
                            dipole_matel) as [-> [-> _]].
  repeat split;
    try apply get_eigs_length; apply get_eigs_ascending.
Qed.

(** Lines 295-300 for the eight levels of [system]: every basis state
    [k] adds the energy of its level to the diagonal entry [k]. *)
Lemma vacancy_loop_spec (H : rmat) :
  shape H 8 8 ->
  exists M,
    for_each (enumerate (make_base 8))
      (fun kb vacancy_ham =>
         let '(k, b) := kb in
         let index := k in
         internal_index <-
           list_index occupation_eq_dec (fst b) (make_snv_base 8) ;;
         old <- mread vacancy_ham index k ;;
         h <- mread H internal_index internal_index ;;
         mwrite 0 vacancy_ham index k (old + h))
      (zeros 0 16 16) = Some M /\
    shape M 16 16 /\
    forall r c, (r < 16)%nat -> (c < 16)%nat ->
      rget M r c = if (r =? c)%nat then rget H (r mod 8) (r mod 8) else 0.
Proof.
  intros HH.
  pose (P := fun (k : nat) (M : rmat) =>
               shape M 16 16 /\
               forall r c, (r < 16)%nat -> (c < 16)%nat ->
                 rget M r c =
                 if (r =? c)%nat && (r <? k)%nat
                 then rget H (r mod 8) (r mod 8) else 0).
  match goal with
  | |- exists M, for_each _ ?body ?init = _ /\ _ =>
      destruct (for_each_enumerate_inv body P (make_base 8) init)
        as [M [Hrun [HM Hent]]]
  end.
  - split; [apply shape_build|]. intros r c _ _.
    unfold rget. rewrite mget_zeros.
    replace (r <? 0)%nat with false by (symmetry; apply Nat.ltb_ge; lia).
    now rewrite andb_false_r.
  - intros k b M Hk [HM HMent].
    assert (Hk16 : (k < 16)%nat).
    { assert (k < length (make_base 8))%nat
        by (apply nth_error_Some; congruence).
      now rewrite length_make_base in *. }
    rewrite nth_error_make_base in Hk by exact Hk16.
    injection Hk as <-. cbn [fst].
    assert (Hm : (k mod 8 < 8)%nat) by (apply Nat.mod_upper_bound; lia).
    rewrite list_index_snv_base by exact Hm. cbn [bind].
    rewrite (mread_shape 0 M 16 16) by assumption. cbn [bind].
    rewrite (mread_shape 0 H 8 8) by assumption. cbn [bind].
    destruct (mwrite_shape 0 M 16 16 k k
                (mget 0 M k k + mget 0 H (k mod 8) (k mod 8)) HM Hk16 Hk16)
      as [M' [Hw [HM' Hent']]].
    exists M'. split; [exact Hw|]. split; [exact HM'|].
    intros r c Hr Hc. unfold rget in *. rewrite Hent' by assumption.
    rewrite (HMent k k) by assumption. rewrite Nat.ltb_irrefl, andb_false_r.
    rewrite HMent by assumption.
    destruct (Nat.eqb_spec r k), (Nat.eqb_spec c k), (Nat.eqb_spec r c),
             (Nat.ltb_spec r k), (Nat.ltb_spec r (Datatypes.S k));
      cbn [andb]; subst; try lia; try reflexivity; lra.
  - rewrite length_make_base in Hent. exists M.
    split; [exact Hrun|]. split; [exact HM|].
    intros r c Hr Hc. rewrite Hent by assumption.
    destruct (Nat.ltb_spec r (2 * 8)); [|lia]. now rewrite andb_true_r.
Qed.

(** C3: for a direction other than zero, [vacancy] returns a real 16x16
    matrix; its diagonal entry [label * 8 + level] is the energy of [level]
    in the list [energy] gives, once in each label sector; every entry off
    the diagonal is zero.  The list is the four eigenvalues that [eigh]
    finds for the ground block built from the magnitude and the direction,
    then the four of the excited block, each group in ascending order. *)
Theorem vacancy_energy_operator (kw : kwargs) :
  kwargs_get (kw_b_vec kw) (0, 0, 1) <> (0, 0, 0) ->
  let B := make_B_vector (kwargs_get (kw_epsilon kw) (/ 10 ^ 6))
                         (kwargs_get (kw_b_vec kw) (0, 0, 1)) in
  let HgT := _HgL B s in
  let HuT := madd (diag (map (fun _ => ZPL) (seq 0 4))) (_HuL B s) in
  let _system :=
    system (kwargs_get (kw_epsilon kw) (/ 10 ^ 6)) false
           {| kw_b_vec := Some (kwargs_get (kw_b_vec kw) (0, 0, 1));
              kw_epsilon := None |} in
  exists M : rmat,
    vacancy kw = Some M /\ shape M 16 16 /\
    (forall label level, (label < 2)%nat -> (level < 8)%nat ->
       rget M (label * 8 + level) (label * 8 + level) =
       nth level (energy kw) 0) /\
    (forall r c, (r < 16)%nat -> (c < 16)%nat -> r <> c -> rget M r c = 0) /\
    energy kw = eigs_g (sys _system) ++ eigs_u (sys _system) /\
    length (eigs_g (sys _system)) = 4%nat /\
    length (eigs_u (sys _system)) = 4%nat /\
    Sorted Rle (eigs_g (sys _system)) /\
    Sorted Rle (eigs_u (sys _system)) /\
    eigs_g (sys _system) = fst (get_eigs HgT) /\
    eigs_u (sys _system) = fst (get_eigs HuT) /\
    Permutation (eigs_g (sys _system)) (v4list (fst (eigh HgT))) /\
    Permutation (eigs_u (sys _system)) (v4list (fst (eigh HuT))).
Proof.
  intros _ B HgT HuT _system.
  destruct (system_eigs (kwargs_get (kw_epsilon kw) (/ 10 ^ 6)) false
              {| kw_b_vec := Some (kwargs_get (kw_b_vec kw) (0, 0, 1));
                 kw_epsilon := None |}) as [Hlg [Hlu [Hsg Hsu]]].
  fold _system in Hlg, Hlu, Hsg, Hsu.
  assert (Hsys : sys _system = manifold HgT HuT dipole_matel).
  { unfold _system, system, system_HgT, system_HuT, system_B.
    cbn [sys kw_b_vec kwargs_get]. reflexivity. }
  destruct (manifold_fields HgT HuT dipole_matel) as [Heg [Heu _]].
  rewrite <- Hsys in Heg, Heu.
  destruct (fill_diagonal_spec (eigs_g (sys _system) ++ eigs_u (sys _system))
              (zeros 0 8 8) 8) as [H [HfH [HH Hdiag]]].
  { apply shape_build. }
  { rewrite length_app. lia. }
  destruct (vacancy_loop_spec H HH) as [M [Hrun [HM Hent]]].
  assert (Hpx : length (px _system) = 8%nat) by apply length_px.
  exists M. split.
  { unfold vacancy. cbv zeta. fold _system. rewrite HfH. cbn [bind].
    rewrite Hpx, length_make_base. exact Hrun. }
  split; [exact HM|].
  assert (Hlen : length (eigs_g (sys _system) ++ eigs_u (sys _system)) = 8%nat)
    by (rewrite length_app; lia).
  split; [|split].
  - intros label level Hlabel Hlevel.
    rewrite Hent by lia. rewrite Nat.eqb_refl.
    assert (Hr : ((label * 8 + level) mod 8 = level)%nat).
    { rewrite Nat.add_comm, Nat.Div0.mod_add. now apply Nat.mod_small. }
    rewrite Hr, Hdiag by assumption.
    rewrite Nat.eqb_refl, Hlen.
    destruct (Nat.ltb_spec level 8); [|lia]. reflexivity.
  - intros r c Hr Hc Hne. rewrite Hent by assumption.
    destruct (Nat.eqb_spec r c); [contradiction|reflexivity].
  - split; [reflexivity|].
    split; [exact Hlg|]. split; [exact Hlu|].
    split; [exact Hsg|]. split; [exact Hsu|].
    split; [exact Heg|]. split; [exact Heu|].
    rewrite Heg, Heu. split; apply get_eigs_permutation.
Qed.

(** ** The enlarged coupling operator *)

Lemma for_each_app {S X} (xs ys : list X) (body : X -> S -> option S) (s0 : S) :
  for_each (xs ++ ys) body s0 =
  (s1 <- for_each xs body s0 ;; for_each ys body s1).
Proof.
  revert s0. induction xs as [|x xs IH]; intros s0; simpl; [reflexivity|].
  destruct (body x s0) as [s1|]; simpl; [apply IH|reflexivity].
Qed.

Lemma for_each_skip {S X} (xs : list X) (body : X -> S -> option S) (s0 : S) :
  (forall x s, In x xs -> body x s = Some s) ->
  for_each xs body s0 = Some s0.
Proof.
  induction xs as [|x xs IH]; intros Hskip; simpl; [reflexivity|].
  rewrite Hskip by (now left). simpl. apply IH.
  intros y s Hy. apply Hskip. now right.
Qed.

(** Lines 338-339: of the rounds of the loop over [m], the one with
    [m = n] is the only one that finds the occupation 1. *)
Lemma for_each_occupied {S} (dim n : nat) (f : nat -> S -> option S) (s0 : S) :
  (n < dim)%nat ->
  for_each (seq 0 dim)
    (fun m s => occ <- nth_error (onehot dim n) m ;;
                if (occ =? 1)%nat then f m s else Some s) s0 =
  f n s0.
Proof.
  intros Hn.
  replace dim with (n + Datatypes.S (dim - n - 1))%nat at 1 by lia.
  rewrite seq_app, for_each_app. cbn [seq Nat.add].
  rewrite for_each_skip.
  - cbn [bind for_each]. rewrite nth_error_onehot by exact Hn.
    rewrite Nat.eqb_refl. cbn [negb bind Nat.eqb].
    destruct (f n s0) as [s1|]; [|reflexivity]. cbn [bind].
    apply for_each_skip. intros m s Hm. apply in_seq in Hm.
    rewrite nth_error_onehot by lia.
    destruct (Nat.eqb_spec m n); [lia|reflexivity].
  - intros m s Hm. apply in_seq in Hm.
    rewrite nth_error_onehot by lia.
    destruct (Nat.eqb_spec m n); [lia|reflexivity].
Qed.

(** Lines 337-343 for the basis state [k]: the loop over [l] writes the
    column [k] of the label sector of [k]. *)
Lemma coupling_column (dim k : nat) (D M : cmat) :
  (0 < dim)%nat -> (k < 2 * dim)%nat ->
  shape D dim dim -> shape M (2 * dim) (2 * dim) ->
  (forall r, (r < 2 * dim)%nat -> cget M r k = C0) ->
  exists M',
    for_each (seq 0 dim)
      (fun l dip_ham =>
         for_each (seq 0 dim)
           (fun m dip_ham =>
              occ <- nth_error (onehot dim (k mod dim)) m ;;
              if (occ =? 1)%nat then
                index <- list_index base_state_eq_dec
                           (onehot dim l, (k / dim)%nat) (make_base dim) ;;
                old <- mread dip_ham index k ;;
                dm <- mread D l m ;;
                mwrite C0 dip_ham index k (Cplus old dm)
              else Some dip_ham)
           dip_ham)
      M = Some M' /\
    shape M' (2 * dim) (2 * dim) /\
    forall r c, (r < 2 * dim)%nat -> (c < 2 * dim)%nat ->
      cget M' r c =
      if (c =? k)%nat
      then if (r / dim =? k / dim)%nat
           then cget D (r mod dim) (k mod dim) else C0
      else cget M r c.
Proof.
  intros Hdim Hk HD HM Hcol.
  assert (Hn : (k mod dim < dim)%nat) by (apply Nat.mod_upper_bound; lia).
  assert (Hlab : (k / dim < 2)%nat) by (apply Nat.Div0.div_lt_upper_bound; lia).
  pose (P := fun (L : nat) (N : cmat) =>
               shape N (2 * dim) (2 * dim) /\
               forall r c, (r < 2 * dim)%nat -> (c < 2 * dim)%nat ->
                 cget N r c =
                 if (c =? k)%nat
                 then if (r / dim =? k / dim)%nat && (r mod dim <? L)%nat
                      then cget D (r mod dim) (k mod dim) else C0
                 else cget M r c).
  match goal with
  | |- exists M', for_each _ ?body _ = _ /\ _ =>
      destruct (for_each_seq_inv body P dim M) as [M' [Hrun [HM' Hent]]]
  end.
  - split; [exact HM|]. intros r c Hr Hc.
    replace (r mod dim <? 0)%nat with false
      by (symmetry; apply Nat.ltb_ge; lia).
    rewrite andb_false_r.
    destruct (Nat.eqb_spec c k); [subst; now apply Hcol|reflexivity].
  - intros L N HL [HN HNent].
    rewrite for_each_occupied by exact Hn.
    rewrite list_index_base by assumption. cbn [bind].
    set (idx := (k / dim * dim + L)%nat).
    assert (Hidx : (idx < 2 * dim)%nat) by (unfold idx; nia).
    assert (Hidx_div : (idx / dim = k / dim)%nat).
    { unfold idx. rewrite Nat.div_add_l by lia.
      rewrite (Nat.div_small L dim) by lia. lia. }
    assert (Hidx_mod : (idx mod dim = L)%nat).
    { unfold idx. rewrite Nat.add_comm, Nat.Div0.mod_add.
      now apply Nat.mod_small. }
    rewrite (mread_shape C0 N (2 * dim) (2 * dim)) by assumption.
    cbn [bind].
    rewrite (mread_shape C0 D dim dim) by assumption. cbn [bind].
    destruct (mwrite_shape C0 N (2 * dim) (2 * dim) idx k
                (Cplus (mget C0 N idx k) (mget C0 D L (k mod dim)))
                HN Hidx Hk) as [N' [Hw [HN' Hent']]].
    exists N'. split; [exact Hw|]. split; [exact HN'|].
    intros r c Hr Hc. unfold cget in *. rewrite Hent' by assumption.
    rewrite (HNent idx k) by assumption.
    rewrite Nat.eqb_refl, Hidx_div, Hidx_mod, Nat.eqb_refl, Nat.ltb_irrefl.
    cbn [andb]. rewrite Cplus_0_l.
    rewrite HNent by assumption.
    destruct (Nat.eqb_spec c k) as [Hck|Hck].
    + rewrite andb_true_r.
      destruct (Nat.eqb_spec r idx) as [Hri|Hri].
      * subst r. rewrite Hidx_div, Hidx_mod, Nat.eqb_refl.
        destruct (Nat.ltb_spec L (Datatypes.S L)); [reflexivity|lia].
      * destruct (Nat.eqb_spec (r / dim) (k / dim)) as [Hq|Hq];
          [|reflexivity].
        cbn [andb].
        assert (Hneq : (r mod dim <> L)%nat).
        { intros Hmod. apply Hri. unfold idx.
          pose proof (Nat.div_mod_eq r dim). nia. }
        destruct (Nat.ltb_spec (r mod dim) L),
                 (Nat.ltb_spec (r mod dim) (Datatypes.S L));
          try lia; reflexivity.
    + rewrite andb_false_r. reflexivity.
  - exists M'. split; [exact Hrun|]. split; [exact HM'|].
    intros r c Hr Hc. rewrite Hent by assumption.
    assert (Hrm : (r mod dim < dim)%nat) by (apply Nat.mod_upper_bound; lia).
    destruct (Nat.ltb_spec (r mod dim) dim); [|lia].
    now rewrite andb_true_r.
Qed.

(** Lines 327-345: the enlarged operator of a square matrix [D], entry
    by entry. *)
Lemma enlarge_spec (D : cmat) (dim : nat) :
  shape D dim dim ->
  exists M,
    enlarge D = Some M /\ shape M (2 * dim) (2 * dim) /\
    forall r c, (r < 2 * dim)%nat -> (c < 2 * dim)%nat ->
      cget M r c =
      if (r / dim =? c / dim)%nat
      then cget D (r mod dim) (c mod dim) else C0.
Proof.
  intros HD. assert (Hlen : length D = dim) by (now destruct HD).
  destruct (Nat.eq_dec dim 0) as [Hz|Hnz].
  { subst dim. destruct D; [|discriminate]. exists [].
    split; [reflexivity|]. split; [split; [reflexivity|constructor]|].
    intros r c Hr. lia. }
  unfold enlarge, coupling_loop. cbv zeta.
  rewrite Hlen, length_make_base.
  pose (P := fun (K : nat) (N : cmat) =>
               shape N (2 * dim) (2 * dim) /\
               forall r c, (r < 2 * dim)%nat -> (c < 2 * dim)%nat ->
                 cget N r c =
                 if (c <? K)%nat && (r / dim =? c / dim)%nat
                 then cget D (r mod dim) (c mod dim) else C0).
  match goal with
  | |- exists M, for_each _ ?body ?init = _ /\ _ =>
      destruct (for_each_enumerate_inv body P (make_base dim) init)
        as [M [Hrun [HM Hent]]]
  end.
  - split; [apply shape_build|]. intros r c _ _.
    unfold cget. rewrite mget_zeros.
    replace (c <? 0)%nat with false by (symmetry; apply Nat.ltb_ge; lia).
    reflexivity.
  - intros K b N HK [HN HNent].
    assert (HK2 : (K < 2 * dim)%nat).
    { assert (K < length (make_base dim))%nat
        by (apply nth_error_Some; congruence).
      now rewrite length_make_base in *. }
    rewrite nth_error_make_base in HK by exact HK2.
    injection HK as <-. cbv beta iota zeta.
    change (0 <? 1)%nat with true. cbn [fst snd].
    destruct (coupling_column dim K D N) as [N' [Hcol [HN' Hent']]];
      try assumption; try lia.
    { intros r Hr. rewrite HNent by assumption.
      now rewrite Nat.ltb_irrefl. }
    exists N'. split; [exact Hcol|]. split; [exact HN'|].
    intros r c Hr Hc. rewrite Hent' by assumption.
    rewrite HNent by assumption.
    destruct (Nat.eqb_spec c K) as [->|Hne].
    + destruct (Nat.ltb_spec K (Datatypes.S K)); [reflexivity|lia].
    + destruct (Nat.ltb_spec c K), (Nat.ltb_spec c (Datatypes.S K));
        try lia; reflexivity.
  - rewrite length_make_base in Hent. exists M.
    split; [exact Hrun|]. split; [exact HM|].
    intros r c Hr Hc. rewrite Hent by assumption.
    destruct (Nat.ltb_spec c (2 * dim)); [reflexivity|lia].
Qed.

Lemma shape_madd (A B : cmat) (r c : nat) :
  shape A r c -> shape B r c -> shape (madd A B) r c.
Proof.
  intros [HlA HrA] [HlB HrB]. unfold madd. split.
  - rewrite length_map, length_combine. lia.
  - rewrite Forall_forall in *. intros row Hrow.
    apply in_map_iff in Hrow. destruct Hrow as [[ra rb] [<- Hin]].
    cbn [fst snd]. rewrite length_map, length_combine.
    rewrite (HrA ra), (HrB rb);
      [lia | eapply in_combine_r; eassumption
           | eapply in_combine_l; eassumption].
Qed.

Lemma shape_mscale_r (A : cmat) (z : C) (r c : nat) :
  shape A r c -> shape (mscale_r A z) r c.
Proof.
  intros [Hlen Hrows]. unfold mscale_r. split.
  - now rewrite length_map.
  - apply Forall_forall. intros row Hrow.
    apply in_map_iff in Hrow. destruct Hrow as [row' [<- Hin]].
    rewrite length_map. rewrite Forall_forall in Hrows. now apply Hrows.
Qed.

Lemma shape_system_operators (_b : R) (_s : bool) (kw : kwargs) :
  shape (px (system _b _s kw)) 8 8 /\
  shape (py (system _b _s kw)) 8 8 /\
  shape (pz (system _b _s kw)) 8 8.
Proof.
  destruct (system_px _b _s kw) as [-> [-> ->]].
  repeat split; apply shape_composite.
Qed.

Lemma shape_dipole_mat (polarization : C * C * C) (kw : kwargs) :
  shape (dipole_mat polarization kw) 8 8.
Proof.
  unfold dipole_mat. cbv zeta.
  match goal with
  | |- context [px (system ?b ?f ?k)] =>
      destruct (shape_system_operators b f k) as [Hx [Hy Hz]]
  end.
  repeat apply shape_madd; now apply shape_mscale_r.
Qed.

Lemma shape_dipole_mat_bfield (polarization : C * C * C) (phi bm : R) :
  shape (dipole_mat_bfield polarization phi bm) 8 8.
Proof.
  unfold dipole_mat_bfield. cbv zeta.
  match goal with
  | |- context [px (system ?b ?f ?k)] =>
      destruct (shape_system_operators b f k) as [Hx [Hy Hz]]
  end.
  repeat apply shape_madd; now apply shape_mscale_r.
Qed.

(** C2: for a [dim] x [dim] matrix [D], the loop of [dipole_ham] and
    [dipole_ham_bfield] returns the [2 dim] x [2 dim] matrix whose entry
    [(label * dim + to_level, label * dim + from_level)] is
    [D[to_level, from_level]] for both labels, and whose entries [(r, c)]
    with [r / dim <> c / dim] are zero. *)
Theorem enlarged_coupling_operator (D : cmat) (dim : nat) :
  shape D dim dim ->
  exists M,
    enlarge D = Some M /\ shape M (2 * dim) (2 * dim) /\
    (forall label to_level from_level,
        (label < 2)%nat -> (to_level < dim)%nat -> (from_level < dim)%nat ->
        cget M (label * dim + to_level) (label * dim + from_level) =
        cget D to_level from_level) /\
    (forall r c, (r < 2 * dim)%nat -> (c < 2 * dim)%nat ->
                 (r / dim <> c / dim)%nat -> cget M r c = C0).
Proof.
  intros HD. destruct (enlarge_spec D dim HD) as [M [Hrun [HM Hent]]].
  exists M. split; [exact Hrun|]. split; [exact HM|]. split.
  - intros label to_level from_level Hl Ht Hf.
    rewrite Hent by nia.
    rewrite !Nat.div_add_l by lia.
    rewrite !(Nat.add_comm (label * dim)), !Nat.Div0.mod_add.
    rewrite !Nat.div_small, !Nat.mod_small by assumption.
    now rewrite Nat.eqb_refl.
  - intros r c Hr Hc Hne. rewrite Hent by assumption.
    destruct (Nat.eqb_spec (r / dim) (c / dim)); [contradiction|reflexivity].
Qed.

(** What [enlarged_coupling_operator] gives for the two entry points:
    their matrices are 16x16, and the 8x8 matrix they enlarge is the one
    [dipole_mat] and [dipole_mat_bfield] return. *)
Lemma dipole_ham_enlarged (polarization : C * C * C) (kw : kwargs)
      (phi bm : R) :
  (exists M,
      dipole_ham polarization kw = Some M /\ shape M 16 16 /\
      (forall label to_level from_level,
          (label < 2)%nat -> (to_level < 8)%nat -> (from_level < 8)%nat ->
          cget M (label * 8 + to_level) (label * 8 + from_level) =
          cget (dipole_mat polarization kw) to_level from_level) /\
      (forall r c, (r < 16)%nat -> (c < 16)%nat ->
                   (r / 8 <> c / 8)%nat -> cget M r c = C0)) /\
  (exists M,
      dipole_ham_bfield polarization phi bm = Some M /\ shape M 16 16 /\
      (forall label to_level from_level,
          (label < 2)%nat -> (to_level < 8)%nat -> (from_level < 8)%nat ->
          cget M (label * 8 + to_level) (label * 8 + from_level) =
          cget (dipole_mat_bfield polarization phi bm) to_level from_level) /\
      (forall r c, (r < 16)%nat -> (c < 16)%nat ->
                   (r / 8 <> c / 8)%nat -> cget M r c = C0)).
Proof.
  split.
  - destruct (enlarge_spec _ 8 (shape_dipole_mat polarization kw))
      as [M [Hrun [HM Hent]]].
    exists M. split; [exact Hrun|]. split; [exact HM|]. split.
    + intros label to_level from_level Hl Ht Hf.
      rewrite Hent by lia.
      rewrite !Nat.div_add_l by lia.
      rewrite !(Nat.add_comm (label * 8)), !Nat.Div0.mod_add.
      rewrite !Nat.div_small, !Nat.mod_small by assumption.
      now rewrite Nat.eqb_refl.
    + intros r c Hr Hc Hne. rewrite Hent by assumption.
      destruct (Nat.eqb_spec (r / 8) (c / 8)); [contradiction|reflexivity].
  - destruct (enlarge_spec _ 8 (shape_dipole_mat_bfield polarization phi bm))
      as [M [Hrun [HM Hent]]].
    exists M. split; [exact Hrun|]. split; [exact HM|]. split.
    + intros label to_level from_level Hl Ht Hf.
      rewrite Hent by lia.
      rewrite !Nat.div_add_l by lia.
      rewrite !(Nat.add_comm (label * 8)), !Nat.Div0.mod_add.
      rewrite !Nat.div_small, !Nat.mod_small by assumption.
      now rewrite Nat.eqb_refl.
    + intros r c Hr Hc Hne. rewrite Hent by assumption.
      destruct (Nat.eqb_spec (r / 8) (c / 8)); [contradiction|reflexivity].
Qed.

(** ** The reduced variants *)

Lemma nth_evens {A} (d : A) (l : list A) (i : nat) :
  nth i (evens l) d = nth (2 * i) l d.
Proof.
  assert (Hgen : forall n (l : list A), (length l <= n)%nat ->
             forall i, nth i (evens l) d = nth (2 * i) l d).
  { induction n as [|n IH]; intros l' Hl i'.
    - destruct l'; [now destruct i'|simpl in Hl; lia].
    - destruct l' as [|x [|y t]]; simpl in Hl.
      + now destruct i'.
      + destruct i' as [|i']; [reflexivity|].
        cbn [evens].
        rewrite (nth_overflow [x] d (n := Datatypes.S i')) by (simpl; lia).
        rewrite (nth_overflow [x] d (n := (2 * Datatypes.S i')%nat))
          by (simpl; lia).
        reflexivity.
      + destruct i' as [|i']; [reflexivity|].
        cbn [evens nth]. rewrite IH by lia.
        replace (2 * Datatypes.S i')%nat
          with (Datatypes.S (Datatypes.S (2 * i'))) by lia.
        reflexivity. }
  apply (Hgen (length l)). lia.
Qed.

Lemma shape_even_rows {A} (M : list (list A)) :
  shape M 4 4 -> shape (evens M) 2 4.
Proof.
  intros [Hlen Hrows].
  destruct M as [|r0 [|r1 [|r2 [|r3 [|r4 M]]]]]; try discriminate.
  inversion Hrows as [|? ? H0 Hrows1]; subst.
  inversion Hrows1 as [|? ? H1 Hrows2]; subst.
  inversion Hrows2 as [|? ? H2 Hrows3]; subst.
  split; [reflexivity|]. cbn. repeat constructor; assumption.
Qed.

Lemma length_even_columns {A} (M : list (list A)) :
  length (even_columns M) = length M.
Proof. unfold even_columns. apply length_map. Qed.

(** C4: what [manifold_small] and [system_small] return against
    [manifold] and [system] on the same blocks.  The eigenvalues are the
    entries 0 and 2 of the full ones and the dipole matrices are the rows
    and columns 0 and 2 of the full ones.  The arrays under ['vecs'] are
    the rows 0 and 2 of the full eigenvector matrices, 2x4 arrays whose
    entry [(i, j)] is component [2 i] of eigenvector [j]; they are not the
    columns 0 and 2, the eigenvectors of the eigenpairs 0 and 2. *)
Theorem manifold_small_against_manifold
        (HT_g HT_u : cmat) (D : axis -> cmat) (_b : R) (_s : bool) :
  let full := manifold HT_g HT_u D in
  let small := manifold_small HT_g HT_u D in
  (eigs_g small = evens (eigs_g full) /\
   eigs_u small = evens (eigs_u full) /\
   (forall a, dips small a = evens2 (dips full a))) /\
  (vecs_g small = evens (vecs_g full) /\
   vecs_u small = evens (vecs_u full) /\
   shape (vecs_g small) 2 4 /\ shape (vecs_u small) 2 4 /\
   (forall i j, cget (vecs_g small) i j = cget (vecs_g full) (2 * i) j) /\
   (forall i j, cget (vecs_u small) i j = cget (vecs_u full) (2 * i) j)) /\
  (vecs_g small <> even_columns (vecs_g full) /\
   vecs_u small <> even_columns (vecs_u full)) /\
  sys (system_small _b _s) =
  manifold_small
    (system_HgT _b _s {| kw_b_vec := None; kw_epsilon := None |})
    (system_HuT _b _s {| kw_b_vec := None; kw_epsilon := None |})
    dipole_matel.
Proof.
  intros full small.
  destruct (manifold_fields HT_g HT_u D) as [Hg [Hu [Hvg [Hvu Hd]]]].
  fold full in Hg, Hu, Hvg, Hvu, Hd.
  assert (Hsg : shape (vecs_g full) 4 4) by (rewrite Hvg; apply get_eigs_shape).
  assert (Hsu : shape (vecs_u full) 4 4) by (rewrite Hvu; apply get_eigs_shape).
  assert (Hevg : vecs_g small = evens (vecs_g full)) by reflexivity.
  assert (Hevu : vecs_u small = evens (vecs_u full)) by reflexivity.
  split; [repeat split|].
  split; [|split; [|reflexivity]].
  - split; [exact Hevg|]. split; [exact Hevu|].
    rewrite Hevg, Hevu.
    split; [now apply shape_even_rows|].
    split; [now apply shape_even_rows|].
    split; intros i j; unfold cget, mget; now rewrite nth_evens.
  - rewrite Hevg, Hevu. split; intros Heq.
    + apply (f_equal (@length _)) in Heq.
      rewrite length_even_columns in Heq.
      destruct (shape_even_rows _ Hsg) as [Hl _]. destruct Hsg as [Hl4 _].
      rewrite Hl, Hl4 in Heq. discriminate.
    + apply (f_equal (@length _)) in Heq.
      rewrite length_even_columns in Heq.
      destruct (shape_even_rows _ Hsu) as [Hl _]. destruct Hsu as [Hl4 _].
      rewrite Hl, Hl4 in Heq. discriminate.
Qed.

(** [vacancy4lvl] puts the entries 0 and 2 of the ground eigenvalues,
    then those of the excited eigenvalues, on the diagonal of a 4x4
    matrix. *)
Lemma vacancy4lvl_spec :
  let _system :=
    system (/ 10 ^ 6) false {| kw_b_vec := None; kw_epsilon := None |} in
  let ens := evens (eigs_g (sys _system)) ++ evens (eigs_u (sys _system)) in
  exists H : rmat,
    vacancy4lvl = Some H /\ shape H 4 4 /\ length ens = 4%nat /\
    forall i j, (i < 4)%nat -> (j < 4)%nat ->
      rget H i j = if (i =? j)%nat then nth i ens 0 else 0.
Proof.
  intros _system ens.
  destruct (system_eigs (/ 10 ^ 6) false
              {| kw_b_vec := None; kw_epsilon := None |})
    as [Hlg [Hlu _]].
  fold _system in Hlg, Hlu.
  assert (Hlen : length ens = 4%nat).
  { unfold ens. rewrite length_app.
    destruct (eigs_g (sys _system)) as [|g0 [|g1 [|g2 [|g3 [|g4 gs]]]]];
      try discriminate.
    destruct (eigs_u (sys _system)) as [|u0 [|u1 [|u2 [|u3 [|u4 us]]]]];
      try discriminate.
    reflexivity. }
  destruct (fill_diagonal_spec ens (zeros 0 4 4) 4) as [H [Hrun [HH Hent]]].
  { apply shape_build. }
  { lia. }
  exists H. split; [exact Hrun|]. split; [exact HH|]. split; [exact Hlen|].
  intros i j Hi Hj. rewrite Hent by assumption. rewrite Hlen.
  unfold rget. rewrite mget_zeros.
  destruct (Nat.ltb_spec i 4); [|lia]. now rewrite andb_true_r.
Qed.

(** ** More on the changes of basis *)

(** X1: [lattice_to_coord] undoes [coord_to_lattice]: the round trip of
    C10 in the other order. *)
Theorem lattice_to_coord_coord_to_lattice (v : vec3) :
  lattice_to_coord (coord_to_lattice v) = v.
Proof.
  destruct v as [[x y] z].
  unfold coord_to_lattice, lattice_to_coord, dot3, _ex, _ey, _ez, scale3,
    vx, vy, vz.
  cbn [fst snd].
  assert (H6 := inv_sqrt_sqr 6 ltac:(lra)).
  assert (H2 := inv_sqrt_sqr 2 ltac:(lra)).
  assert (H3 := inv_sqrt_sqr 3 ltac:(lra)).
  set (a := 1 / sqrt 6) in *. set (b := 1 / sqrt 2) in *.
  set (c := 1 / sqrt 3) in *.
  f_equal; [f_equal|].
  - match goal with |- ?L = _ => replace L with (a * a * (6 * x)) by ring end.
    rewrite H6. field.
  - match goal with |- ?L = _ => replace L with (b * b * (2 * y)) by ring end.
    rewrite H2. field.
  - match goal with |- ?L = _ => replace L with (c * c * (3 * z)) by ring end.
    rewrite H3. field.
Qed.

(** X2: both changes of basis keep the squared length of a vector. *)
Theorem basis_changes_keep_sqnorm (v : vec3) :
  sqnorm3 (lattice_to_coord v) = sqnorm3 v /\
  sqnorm3 (coord_to_lattice v) = sqnorm3 v.
Proof.
  destruct v as [[x y] z].
  unfold sqnorm3, coord_to_lattice, lattice_to_coord, dot3, _ex, _ey, _ez,
    scale3, vx, vy, vz.
  cbn [fst snd].
  assert (H6 := inv_sqrt_sqr 6 ltac:(lra)).
  assert (H2 := inv_sqrt_sqr 2 ltac:(lra)).
  assert (H3 := inv_sqrt_sqr 3 ltac:(lra)).
  set (a := 1 / sqrt 6) in *. set (b := 1 / sqrt 2) in *.
  set (c := 1 / sqrt 3) in *.
  split.
  - match goal with
    | |- ?L = _ =>
        replace L with (a * a * ((x - 2 * y + z) * (x - 2 * y + z)) +
                        b * b * ((x - z) * (x - z)) +
                        c * c * ((x + y + z) * (x + y + z))) by ring
    end.
    rewrite H6, H2, H3. field.
  - match goal with
    | |- ?L = _ =>
        replace L with (a * a * (6 * (x * x)) + b * b * (2 * (y * y)) +
                        c * c * (3 * (z * z))) by ring
    end.
    rewrite H6, H2, H3. field.
Qed.

(** ** More on [make_B_vector] *)

(** X3: for a direction other than zero the result is the direction
    scaled by [magnitude / |d|^2]; its length is [|magnitude| / |d|]. *)
Theorem make_B_vector_scales_by_sqnorm (magnitude : R) (v : vec3) :
  v <> (0, 0, 0) ->
  make_B_vector magnitude v = scale3 (magnitude / sqnorm3 v) v /\
  norm3 (make_B_vector magnitude v) = Rabs magnitude / norm3 v.
Proof.
  intros Hv. split; [|now apply make_B_vector_norm].
  pose proof (sqnorm3_pos v Hv) as Hpos.
  rewrite make_B_vector_eq. unfold scale3.
  f_equal; [f_equal|]; field; lra.
Qed.

(** X4: for a direction of length 1 the result is the direction times the
    magnitude, a vector of length [|magnitude|]. *)
Theorem make_B_vector_unit_direction (magnitude : R) (v : vec3) :
  sqnorm3 v = 1 ->
  make_B_vector magnitude v = scale3 magnitude v /\
  norm3 (make_B_vector magnitude v) = Rabs magnitude.
Proof.
  intros Hv.
  assert (Heq : make_B_vector magnitude v = scale3 magnitude v).
  { rewrite make_B_vector_eq, Hv. unfold scale3.
    f_equal; [f_equal|]; field. }
  split; [exact Heq|].
  rewrite Heq. unfold norm3, scale3, vx, vy, vz. cbn [fst snd].
  unfold sqnorm3, vx, vy, vz in Hv.
  replace (magnitude * fst (fst v) * (magnitude * fst (fst v)) +
           magnitude * snd (fst v) * (magnitude * snd (fst v)) +
           magnitude * snd v * (magnitude * snd v))
    with (magnitude * magnitude *
          (fst (fst v) * fst (fst v) + snd (fst v) * snd (fst v) +
           snd v * snd v)) by ring.
  rewrite Hv, Rmult_1_r. apply sqrt_Rsqr_abs.
Qed.

(** ** More on [get_eigs] *)

Lemma nth_map_in {A B} (f : A -> B) (l : list A) (i : nat) (da : A) (db : B) :
  (i < length l)%nat -> nth i (map f l) db = f (nth i l da).
Proof.
  intros Hi. rewrite (nth_indep _ db (f da)) by (now rewrite length_map).
  apply map_nth.
Qed.

Lemma cget_take_cols (V : cmat) (idx : list nat) (i j : nat) :
  (i < length V)%nat -> (j < length idx)%nat ->
  cget (take_cols C0 V idx) i j = cget V i (nth j idx 0%nat).
Proof.
  intros Hi Hj. unfold cget, mget, take_cols, take.
  rewrite (nth_map_in _ V i [] []) by exact Hi.
  now rewrite (nth_map_in _ idx j 0%nat C0) by exact Hj.
Qed.

(** X5: [get_eigs] reorders the four eigenpairs of [eigh] by one
    permutation of the positions: eigenvalue [j] of the result is
    eigenvalue [idx[j]] of [eigh], column [j] of the result is column
    [idx[j]] of [eigh], and the eigenvalues of the result ascend. *)
Theorem get_eigs_reorders_eigenpairs (M : cmat) :
  let w := v4list (fst (eigh M)) in
  let V := map v4list (v4list (snd (eigh M))) in
  exists idx,
    Permutation idx [0; 1; 2; 3]%nat /\
    fst (get_eigs M) = take 0 w idx /\
    snd (get_eigs M) = take_cols C0 V idx /\
    (forall i j, (i < 4)%nat -> (j < 4)%nat ->
                 cget (snd (get_eigs M)) i j = cget V i (nth j idx 0%nat)) /\
    Sorted Rle (fst (get_eigs M)) /\
    Permutation (fst (get_eigs M)) w.
Proof.
  intros w V. exists (argsort w).
  split; [apply (Permutation_argsort w)|].
  split; [reflexivity|]. split; [reflexivity|].
  split; [|split; [apply get_eigs_ascending | apply get_eigs_permutation]].
  intros i j Hi Hj. unfold get_eigs. cbn [snd]. fold w V.
  apply cget_take_cols; [exact Hi|].
  now rewrite length_argsort.
Qed.

Lemma Sorted_nth_le (w : list R) :
  Sorted Rle w ->
  forall j k, (j <= k < length w)%nat -> nth j w 0 <= nth k w 0.
Proof.
  intros Hs. apply Sorted_StronglySorted in Hs.
  2:{ intros a b c Hab Hbc. lra. }
  induction Hs as [|a t Hst IH Hall]; intros j k Hjk; simpl in Hjk; [lia|].
  destruct j as [|j], k as [|k]; simpl; try lia; try lra.
  - rewrite Forall_forall in Hall. apply Hall, nth_In. lia.
  - apply IH. lia.
Qed.

Lemma insert_by_last (w : list R) (i : nat) (l : list nat) :
  (forall j, In j l -> nth j w 0 <= nth i w 0) ->
  insert_by w i l = l ++ [i].
Proof.
  induction l as [|j t IH]; intros Hle; simpl; [reflexivity|].
  destruct (Rle_dec (nth j w 0) (nth i w 0)) as [_|Hgt].
  - rewrite IH; [reflexivity|]. intros j' Hj'. apply Hle. now right.
  - exfalso. apply Hgt, Hle. now left.
Qed.

(** On keys that ascend already [argsort] is the identity. *)
Lemma argsort_sorted (w : list R) :
  Sorted Rle w -> argsort w = seq 0 (length w).
Proof.
  intros Hs. unfold argsort.
  assert (Hgen : forall n k,
             (k + n <= length w)%nat ->
             fold_left (fun acc i => insert_by w i acc) (seq k n) (seq 0 k) =
             seq 0 (k + n)).
  { induction n as [|n IH]; intros k Hk; simpl.
    - now rewrite Nat.add_0_r.
    - rewrite insert_by_last.
      + rewrite <- seq_S. rewrite IH by lia. f_equal. lia.
      + intros j Hj. apply in_seq in Hj.
        apply Sorted_nth_le; [exact Hs|lia]. }
  apply (Hgen (length w) 0%nat). lia.
Qed.

(** X6: when the eigenvalues that [eigh] returns ascend already, as numpy
    documents, [get_eigs] returns the result of [eigh] as it is. *)
Theorem get_eigs_of_ascending (M : cmat) :
  Sorted Rle (v4list (fst (eigh M))) ->
  get_eigs M = (v4list (fst (eigh M)), map v4list (v4list (snd (eigh M)))).
Proof.
  intros Hs. unfold get_eigs. rewrite (argsort_sorted _ Hs). reflexivity.
Qed.

(** ** The blocks are Hermitian *)

Lemma hermitian_entries (M : cmat) (n i j : nat) :
  shape M n n -> Hermitian M -> (i < n)%nat -> (j < n)%nat ->
  cget M i j = Cconj (cget M j i).
Proof.
  intros HM HH Hi Hj. unfold Hermitian in HH. rewrite HH at 1.
  now apply (cget_ctranspose M n n).
Qed.

Lemma hermitian_from_entries (M : cmat) (n : nat) :
  shape M n n -> (0 < n)%nat ->
  (forall i j, (i < n)%nat -> (j < n)%nat ->
               cget M i j = Cconj (cget M j i)) ->
  Hermitian M.
Proof.
  intros HM Hn Hent. unfold Hermitian.
  apply (mat_ext C0 _ _ n n);
    [exact HM | now apply shape_ctranspose |].
  intros i j Hi Hj.
  fold (cget M i j). fold (cget (ctranspose M) i j).
  rewrite (cget_ctranspose M n n) by assumption.
  now apply Hent.
Qed.

Lemma HgL_hermitian (_B : vec3) (_s : bool) : Hermitian (_HgL _B _s).
Proof.
  destruct _B as [[Bx By] Bz], _s;
    unfold _HgL, _Hg0, H_SO, H_JT, H_ZL, H_ZS, H_st, madd, madd_scalar, mscale;
    hermitian_4x4.
Qed.

Lemma HuL_hermitian (_B : vec3) (_s : bool) : Hermitian (_HuL _B _s).
Proof.
  destruct _B as [[Bx By] Bz], _s;
    unfold _HuL, _Hu0, H_SO, H_JT, H_ZL, H_ZS, H_st, madd, madd_scalar, mscale;
    hermitian_4x4.
Qed.

Lemma excited_block_hermitian (_B : vec3) (_s : bool) :
  Hermitian (madd (diag (map (fun _ => ZPL) (seq 0 4))) (_HuL _B _s)).
Proof.
  destruct _B as [[Bx By] Bz], _s;
    unfold _HuL, _Hu0, H_SO, H_JT, H_ZL, H_ZS, H_st, madd, madd_scalar, mscale,
      diag;
    hermitian_4x4.
Qed.

(** X7: for every field vector and either value of the flag, the ground
    sum [_HgL], the excited sum [_HuL] and the excited sum shifted by [ZPL],
    which are the matrices that [eigh] receives, are 4x4 and equal to their
    conjugate transposes. *)
Theorem manifold_blocks_hermitian (_B : vec3) (_s : bool) :
  (shape (_HgL _B _s) 4 4 /\ Hermitian (_HgL _B _s)) /\
  (shape (_HuL _B _s) 4 4 /\ Hermitian (_HuL _B _s)) /\
  (shape (madd (diag (map (fun _ => ZPL) (seq 0 4))) (_HuL _B _s)) 4 4 /\
   Hermitian (madd (diag (map (fun _ => ZPL) (seq 0 4))) (_HuL _B _s))).
Proof.
  split; [split; [apply shape_HgL | apply HgL_hermitian]|].
  split; [split; [apply shape_HuL | apply HuL_hermitian]|].
  split; [apply shape_excited_block | apply excited_block_hermitian].
Qed.

(** X8: for every magnitude and flag and every direction other than
    zero, [snv_hamiltonian] returns an 8x8 matrix equal to its conjugate
    transpose whose two off-diagonal 4x4 blocks are zero. *)
Theorem snv_hamiltonian_block_diagonal (_b : R) (_s : bool) (kw : kwargs) :
  kwargs_get (kw_b_vec kw) (0, 0, 1) <> (0, 0, 0) ->
  shape (snv_hamiltonian _b _s kw) 8 8 /\
  Hermitian (snv_hamiltonian _b _s kw) /\
  slice C0 (snv_hamiltonian _b _s kw) 0 4 4 8 = zeros C0 4 4 /\
  slice C0 (snv_hamiltonian _b _s kw) 4 8 0 4 = zeros C0 4 4.
Proof.
  intros _.
  assert (Hshape : shape (snv_hamiltonian _b _s kw) 8 8).
  { unfold snv_hamiltonian. cbv zeta.
    apply shape_assign_block; [|lia].
    apply shape_assign_block; [|lia]. apply shape_build. }
  split; [exact Hshape|]. split; [|split].
  - apply (hermitian_from_entries _ 8 Hshape); [lia|].
    intros i j Hi Hj. rewrite !snv_hamiltonian_entries by assumption.
    cbv zeta.
    destruct (Nat.leb_spec 4 i), (Nat.leb_spec 4 j),
             (Nat.ltb_spec i 4), (Nat.ltb_spec j 4);
      cbn [andb]; try lia; try (now rewrite Cconj_0).
    + apply (hermitian_entries _ 4);
        [apply shape_HgL | apply HgL_hermitian | lia | lia].
    + apply (hermitian_entries _ 4);
        [apply shape_excited_block | apply excited_block_hermitian
        | lia | lia].
  - apply (mat_ext C0 _ _ 4 4);
      [apply (shape_slice C0 _ 0 4 4 8) | apply shape_build |].
    intros i j Hi Hj. rewrite mget_slice by lia. rewrite mget_zeros.
    fold (cget (snv_hamiltonian _b _s kw) (0 + i) (4 + j)).
    rewrite snv_hamiltonian_entries by lia. cbv zeta.
    destruct (Nat.leb_spec 4 (0 + i)); [lia|].
    destruct (Nat.ltb_spec (4 + j) 4); [lia|].
    cbn [andb]. now rewrite andb_false_r.
  - apply (mat_ext C0 _ _ 4 4);
      [apply (shape_slice C0 _ 4 8 0 4) | apply shape_build |].
    intros i j Hi Hj. rewrite mget_slice by lia. rewrite mget_zeros.
    fold (cget (snv_hamiltonian _b _s kw) (4 + i) (0 + j)).
    rewrite snv_hamiltonian_entries by lia. cbv zeta.
    destruct (Nat.leb_spec 4 (0 + j)); [lia|].
    destruct (Nat.ltb_spec (4 + i) 4); [lia|].
    cbn [andb]. now rewrite andb_false_r.
Qed.

Lemma make_B_vector_zero_magnitude (v : vec3) :
  make_B_vector 0 v = (0, 0, 0).
Proof.
  rewrite make_B_vector_eq. unfold Rdiv. now rewrite !Rmult_0_l.
Qed.

(** X9: at magnitude 0 and a direction other than zero the Zeeman terms
    vanish: the blocks of [snv_hamiltonian] are the field-free sums [_Hg0]
    and [ZPL + _Hu0], whatever the direction.  (At the zero direction numpy
    divides 0 by 0, which the real numbers do not show.) *)
Theorem snv_hamiltonian_zero_field (_s : bool) (kw : kwargs) :
  kwargs_get (kw_b_vec kw) (0, 0, 1) <> (0, 0, 0) ->
  slice C0 (snv_hamiltonian 0 _s kw) 4 8 4 8 = _Hg0 /\
  slice C0 (snv_hamiltonian 0 _s kw) 0 4 0 4 =
  madd (diag (map (fun _ => ZPL) (seq 0 4))) _Hu0.
Proof.
  intros _.
  rewrite snv_hamiltonian_ground_block, snv_hamiltonian_excited_block.
  rewrite make_B_vector_zero_magnitude. unfold s.
  split.
  - unfold _HgL, _Hg0, H_SO, H_JT, H_ZL, H_ZS, madd, madd_scalar, mscale,
      vx, vy, vz.
    cbn. repeat (f_equal; try c_solve).
  - unfold _HuL, _Hu0, H_SO, H_JT, H_ZL, H_ZS, madd, madd_scalar, mscale,
      diag, vx, vy, vz.
    cbn. repeat (f_equal; try c_solve).
Qed.

(** ** The composite operators of [system_small] *)

Lemma length_evens_4 {A} (l : list A) :
  length l = 4%nat -> length (evens l) = 2%nat.
Proof.
  intros Hl. destruct l as [|a [|b [|c [|d [|x l]]]]]; try discriminate.
  reflexivity.
Qed.

Lemma shape_evens2 {A} (T : list (list A)) :
  shape T 4 4 -> shape (evens2 T) 2 2.
Proof.
  intros [Hlen Hrows]. unfold evens2.
  destruct T as [|r0 [|r1 [|r2 [|r3 [|r4 T]]]]]; try discriminate.
  inversion Hrows as [|? ? H0 Hrows1]; subst.
  inversion Hrows1 as [|? ? H1 Hrows2]; subst.
  inversion Hrows2 as [|? ? H2 Hrows3]; subst.
  split; [reflexivity|]. cbn.
  repeat constructor; now apply length_evens_4.
Qed.

Lemma shape_composite_small (T : cmat) : shape (composite_small T) 4 4.
Proof.
  unfold composite_small.
  apply shape_assign_block; [|lia].
  apply shape_assign_block; [|lia].
  apply shape_build.
Qed.

Lemma composite_small_entries (T : cmat) (i j : nat) :
  shape T 2 2 -> (i < 4)%nat -> (j < 4)%nat ->
  cget (composite_small T) i j =
  if (i <? 2)%nat && (2 <=? j)%nat then cget T i (j - 2)
  else if (2 <=? i)%nat && (j <? 2)%nat then Cconj (cget T j (i - 2))
       else C0.
Proof.
  intros HT Hi Hj. unfold composite_small, cget.
  assert (Hz : shape (zeros C0 4 4) 4 4) by apply shape_build.
  rewrite (mget_assign_block C0 _ _ 4 4); [| |exact Hi|exact Hj].
  2:{ apply shape_assign_block; [exact Hz|lia]. }
  rewrite (mget_assign_block C0 _ _ 4 4 0 2 2 4 i j Hz Hi Hj).
  rewrite mget_zeros.
  destruct (Nat.leb_spec 2 i), (Nat.leb_spec 2 j),
           (Nat.ltb_spec i 4), (Nat.ltb_spec j 4),
           (Nat.ltb_spec i 2), (Nat.ltb_spec j 2);
    cbn [andb Nat.leb]; try lia; try reflexivity.
  - rewrite Nat.sub_0_r.
    apply (cget_ctranspose T 2 2); [exact HT|lia|lia].
  - rewrite Nat.sub_0_r. reflexivity.
Qed.

Lemma composite_small_slice (T : cmat) (r0 c0 : nat) (B : cmat) :
  shape T 2 2 -> shape B 2 2 -> (r0 + 2 <= 4)%nat -> (c0 + 2 <= 4)%nat ->
  (forall i j, (i < 2)%nat -> (j < 2)%nat ->
               cget (composite_small T) (r0 + i) (c0 + j) = cget B i j) ->
  slice C0 (composite_small T) r0 (r0 + 2) c0 (c0 + 2) = B.
Proof.
  intros HT HB Hr Hc Hent.
  apply (mat_ext C0 _ _ 2 2); [| exact HB |].
  - pose proof (shape_slice C0 (composite_small T) r0 (r0 + 2) c0 (c0 + 2))
      as Hs.
    replace (r0 + 2 - r0)%nat with 2%nat in Hs by lia.
    now replace (c0 + 2 - c0)%nat with 2%nat in Hs by lia.
  - intros i j Hi Hj. rewrite mget_slice by lia. now apply Hent.
Qed.

Lemma manifold_small_dips (HT_g HT_u : cmat) (D : axis -> cmat) (a : axis) :
  dips (manifold_small HT_g HT_u D) a = evens2 (dips (manifold HT_g HT_u D) a).
Proof. reflexivity. Qed.

Lemma system_small_px (_b : R) (_s : bool) :
  px (system_small _b _s) =
  composite_small (dips (sys (system_small _b _s)) ax_x) /\
  py (system_small _b _s) =
  composite_small (dips (sys (system_small _b _s)) ax_y) /\
  pz (system_small _b _s) =
  composite_small (dips (sys (system_small _b _s)) ax_z).
Proof. repeat split; reflexivity. Qed.

(** X10: each of [px], [py], [pz] that [system_small] returns is a 4x4
    matrix equal to its conjugate transpose.  Its block at rows 0-1,
    columns 2-3 is the rows and columns 0 and 2 of the transformed dipole
    matrix that [system] computes at the same magnitude and the default
    direction, its block at rows 2-3, columns 0-1 is the conjugate
    transpose of that, and its two diagonal blocks are zero. *)
Theorem system_small_dipole_operators (_b : R) (_s : bool) (a : axis) :
  let r := system_small _b _s in
  let full := system _b _s {| kw_b_vec := None; kw_epsilon := None |} in
  let P := composite_of r a in
  let T := evens2 (dips (sys full) a) in
  shape P 4 4 /\ Hermitian P /\
  dips (sys r) a = T /\
  slice C0 P 0 2 2 4 = T /\
  slice C0 P 2 4 0 2 = ctranspose T /\
  slice C0 P 0 2 0 2 = zeros C0 2 2 /\
  slice C0 P 2 4 2 4 = zeros C0 2 2.
Proof.
  intros r full P T.
  assert (Hd : dips (sys r) a = T).
  { unfold r, full, T, system_small, system, system_HgT, system_HuT, system_B.
    cbn [sys kw_b_vec kwargs_get]. apply manifold_small_dips. }
  assert (HP : P = composite_small T).
  { rewrite <- Hd. unfold P, r.
    destruct (system_small_px _b _s) as [Hx [Hy Hz]].
    destruct a; assumption. }
  assert (HT : shape T 2 2).
  { apply shape_evens2. unfold full, system. cbn [sys].
    match goal with
    | |- context [manifold ?g ?u ?D] =>
        destruct (manifold_fields g u D) as [_ [_ [_ [_ ->]]]]
    end.
    apply shape_transformed; apply get_eigs_shape. }
  rewrite HP.
  split; [apply shape_composite_small|].
  split.
  { apply (hermitian_from_entries _ 4); [apply shape_composite_small|lia|].
    intros i j Hi Hj. rewrite !composite_small_entries by assumption.
    destruct (Nat.leb_spec 2 i), (Nat.leb_spec 2 j),
             (Nat.ltb_spec i 2), (Nat.ltb_spec j 2);
      cbn [andb]; try lia;
      rewrite ?Cconj_involutive, ?Cconj_0; reflexivity. }
  split; [exact Hd|].
  split; [|split; [|split]].
  - apply (composite_small_slice T 0 2 T HT HT); try lia.
    intros i j Hi Hj. rewrite composite_small_entries by (try exact HT; lia).
    destruct (Nat.ltb_spec (0 + i) 2); [|lia].
    destruct (Nat.leb_spec 2 (2 + j)); [|lia].
    cbn [andb]. now replace (2 + j - 2)%nat with j by lia.
  - apply (composite_small_slice T 2 0 (ctranspose T) HT); try lia.
    { apply shape_ctranspose; [exact HT|lia]. }
    intros i j Hi Hj. rewrite composite_small_entries by (try exact HT; lia).
    destruct (Nat.ltb_spec (2 + i) 2); [lia|].
    destruct (Nat.leb_spec 2 (2 + i)); [|lia].
    destruct (Nat.ltb_spec (0 + j) 2); [|lia].
    cbn [andb]. replace (2 + i - 2)%nat with i by lia.
    now rewrite (cget_ctranspose T 2 2) by (try exact HT; lia).
  - apply (composite_small_slice T 0 0 (zeros C0 2 2) HT); try lia.
    { apply shape_build. }
    intros i j Hi Hj. rewrite composite_small_entries by (try exact HT; lia).
    change (cget (zeros C0 2 2) i j) with (mget C0 (zeros C0 2 2) i j).
    rewrite mget_zeros.
    destruct (Nat.ltb_spec (0 + i) 2); [|lia].
    destruct (Nat.leb_spec 2 (0 + j)); [lia|].
    destruct (Nat.leb_spec 2 (0 + i)); [lia|].
    reflexivity.
  - apply (composite_small_slice T 2 2 (zeros C0 2 2) HT); try lia.
    { apply shape_build. }
    intros i j Hi Hj. rewrite composite_small_entries by (try exact HT; lia).
    change (cget (zeros C0 2 2) i j) with (mget C0 (zeros C0 2 2) i j).
    rewrite mget_zeros.
    destruct (Nat.ltb_spec (2 + i) 2); [lia|].
    destruct (Nat.ltb_spec (2 + j) 2); [lia|].
    cbn [andb]. now rewrite andb_false_r.
Qed.

(** ** The energy operators *)

Lemma nth_evens_app_4 (g u : list R) (i : nat) :
  length g = 4%nat -> length u = 4%nat -> (i < 4)%nat ->
  nth i (evens g ++ evens u) 0 = nth (2 * i) (g ++ u) 0.
Proof.
  intros Hg Hu Hi.
  destruct g as [|g0 [|g1 [|g2 [|g3 [|g4 g]]]]]; try discriminate.
  destruct u as [|u0 [|u1 [|u2 [|u3 [|u4 u]]]]]; try discriminate.
  destruct i as [|[|[|[|i]]]]; try lia; reflexivity.
Qed.

(** X11: [vacancy4lvl] returns the 4x4 diagonal matrix whose diagonal
    entry [i] is entry [2 i] of the list that [energy] returns with its
    default arguments. *)
Theorem vacancy4lvl_energy :
  exists H : rmat,
    vacancy4lvl = Some H /\ shape H 4 4 /\
    forall i j, (i < 4)%nat -> (j < 4)%nat ->
      rget H i j =
      if (i =? j)%nat
      then nth (2 * i) (energy {| kw_b_vec := None; kw_epsilon := None |}) 0
      else 0.
Proof.
  destruct vacancy4lvl_spec as [H [Hrun [HH [_ Hent]]]].
  exists H. split; [exact Hrun|]. split; [exact HH|].
  intros i j Hi Hj. rewrite Hent by assumption.
  destruct (Nat.eqb_spec i j); [|reflexivity].
  destruct (system_eigs (/ 10 ^ 6) false
              {| kw_b_vec := None; kw_epsilon := None |})
    as [Hlg [Hlu _]].
  now rewrite nth_evens_app_4.
Qed.

(** X12: [vacancy_all_lvl] returns the 8x8 diagonal matrix of the list
    that [energy] returns, and [vacancy] returns two copies of it: the
    block of either label is that matrix, the entries between the two
    labels are zero. *)
Theorem vacancy_is_two_copies_of_vacancy_all_lvl (kw : kwargs) :
  exists H M : rmat,
    vacancy_all_lvl kw = Some H /\ vacancy kw = Some M /\
    shape H 8 8 /\ shape M 16 16 /\
    (forall i j, (i < 8)%nat -> (j < 8)%nat ->
       rget H i j = if (i =? j)%nat then nth i (energy kw) 0 else 0) /\
    (forall label i j, (label < 2)%nat -> (i < 8)%nat -> (j < 8)%nat ->
       rget M (label * 8 + i) (label * 8 + j) = rget H i j) /\
    (forall r c, (r < 16)%nat -> (c < 16)%nat -> (r / 8 <> c / 8)%nat ->
       rget M r c = 0).
Proof.
  set (_system :=
         system (kwargs_get (kw_epsilon kw) (/ 10 ^ 6)) false
                {| kw_b_vec := Some (kwargs_get (kw_b_vec kw) (0, 0, 1));
                   kw_epsilon := None |}).
  destruct (system_eigs (kwargs_get (kw_epsilon kw) (/ 10 ^ 6)) false
              {| kw_b_vec := Some (kwargs_get (kw_b_vec kw) (0, 0, 1));
                 kw_epsilon := None |}) as [Hlg [Hlu _]].
  fold _system in Hlg, Hlu.
  assert (Hlen : length (eigs_g (sys _system) ++ eigs_u (sys _system)) = 8%nat)
    by (rewrite length_app; lia).
  destruct (fill_diagonal_spec (eigs_g (sys _system) ++ eigs_u (sys _system))
              (zeros 0 8 8) 8) as [H [HfH [HH Hdiag]]].
  { apply shape_build. }
  { lia. }
  destruct (vacancy_loop_spec H HH) as [M [Hrun [HM Hent]]].
  assert (Hpx : length (px _system) = 8%nat) by apply length_px.
  exists H, M.
  split.
  { unfold vacancy_all_lvl. cbv zeta. fold _system.
    rewrite Hpx. exact HfH. }
  split.
  { unfold vacancy. cbv zeta. fold _system. rewrite HfH. cbn [bind].
    rewrite Hpx, length_make_base. exact Hrun. }
  split; [exact HH|]. split; [exact HM|].
  assert (HHent : forall i j, (i < 8)%nat -> (j < 8)%nat ->
             rget H i j = if (i =? j)%nat then nth i (energy kw) 0 else 0).
  { intros i j Hi Hj. rewrite Hdiag by assumption. rewrite Hlen.
    unfold rget. rewrite mget_zeros.
    destruct (Nat.ltb_spec i 8); [|lia]. now rewrite andb_true_r. }
  split; [exact HHent|]. split.
  - intros label i j Hl Hi Hj. rewrite Hent by lia.
    assert (Hr : ((label * 8 + i) mod 8 = i)%nat).
    { rewrite Nat.add_comm, Nat.Div0.mod_add. now apply Nat.mod_small. }
    rewrite Hr, !HHent by assumption. rewrite Nat.eqb_refl.
    destruct (Nat.eqb_spec (label * 8 + i) (label * 8 + j)),
             (Nat.eqb_spec i j); try lia; reflexivity.
  - intros r c Hr Hc Hne. rewrite Hent by assumption.
    destruct (Nat.eqb_spec r c); [subst; contradiction|reflexivity].
Qed.

(** ** The combined dipole matrix *)

Lemma cget_mscale_r (A : cmat) (z : C) (i j : nat) :
  cget (mscale_r A z) i j = Cmult (cget A i j) z.
Proof.
  unfold cget, mget, mscale_r.
  change (@nil C) with (map (fun x => Cmult x z) []).
  rewrite (map_nth (map (fun x => Cmult x z)) A [] i).
  replace C0 with (Cmult C0 z) at 1 by (destruct z; c_solve).
  apply (map_nth (fun x => Cmult x z)).
Qed.

Lemma cget_madd (A B : cmat) (r c i j : nat) :
  shape A r c -> shape B r c -> (i < r)%nat -> (j < c)%nat ->
  cget (madd A B) i j = Cplus (cget A i j) (cget B i j).
Proof.
  intros HA HB Hi Hj. unfold cget, mget, madd.
  assert (HlA : length A = r) by (now destruct HA).
  assert (HlB : length B = r) by (now destruct HB).
  rewrite (nth_map_in _ (combine A B) i ([], []) [])
    by (rewrite length_combine; lia).
  rewrite combine_nth by congruence. cbn [fst snd].
  assert (Hra : length (nth i A []) = c) by (now apply (shape_row A r c)).
  assert (Hrb : length (nth i B []) = c) by (now apply (shape_row B r c)).
  rewrite (nth_map_in _ (combine (nth i A []) (nth i B [])) j (C0, C0) C0)
    by (rewrite length_combine; lia).
  rewrite combine_nth by congruence. reflexivity.
Qed.

(** The entries of [px * p0 + py * p1 + pz * p2]. *)
Lemma weighted_sum_entries (Px Py Pz : cmat) (p0 p1 p2 : C) (i j : nat) :
  shape Px 8 8 -> shape Py 8 8 -> shape Pz 8 8 ->
  (i < 8)%nat -> (j < 8)%nat ->
  cget (madd (madd (mscale_r Px p0) (mscale_r Py p1)) (mscale_r Pz p2)) i j =
  Cplus (Cplus (Cmult (cget Px i j) p0) (Cmult (cget Py i j) p1))
        (Cmult (cget Pz i j) p2).
Proof.
  intros Hx Hy Hz Hi Hj.
  rewrite (cget_madd _ _ 8 8); try assumption;
    [| apply shape_madd; now apply shape_mscale_r
     | now apply shape_mscale_r].
  rewrite (cget_madd _ _ 8 8); try assumption;
    try (now apply shape_mscale_r).
  now rewrite !cget_mscale_r.
Qed.

(** A real combination of three matrices of the form [composite T] is
    Hermitian, and any combination has zero diagonal blocks. *)
Lemma weighted_sum_of_composites (Tx Ty Tz : cmat) (p0 p1 p2 : C) :
  shape Tx 4 4 -> shape Ty 4 4 -> shape Tz 4 4 ->
  let D := madd (madd (mscale_r (composite Tx) p0)
                      (mscale_r (composite Ty) p1))
                (mscale_r (composite Tz) p2) in
  shape D 8 8 /\
  (snd p0 = 0 -> snd p1 = 0 -> snd p2 = 0 -> Hermitian D) /\
  slice C0 D 0 4 0 4 = zeros C0 4 4 /\
  slice C0 D 4 8 4 8 = zeros C0 4 4 /\
  (p0 = RtoC 1 -> p1 = C0 -> p2 = C0 -> D = composite Tx) /\
  (p0 = C0 -> p1 = RtoC 1 -> p2 = C0 -> D = composite Ty) /\
  (p0 = C0 -> p1 = C0 -> p2 = RtoC 1 -> D = composite Tz).
Proof.
  intros Hx Hy Hz D.
  assert (HD : shape D 8 8).
  { unfold D. repeat apply shape_madd; apply shape_mscale_r;
      apply shape_composite. }
  assert (Hent : forall i j, (i < 8)%nat -> (j < 8)%nat ->
             cget D i j =
             Cplus (Cplus (Cmult (cget (composite Tx) i j) p0)
                          (Cmult (cget (composite Ty) i j) p1))
                   (Cmult (cget (composite Tz) i j) p2)).
  { intros i j Hi Hj. unfold D.
    apply weighted_sum_entries; try assumption; apply shape_composite. }
  split; [exact HD|]. split; [|split; [|split; [|split; [|split]]]].
  - intros H0 H1 H2. apply (hermitian_from_entries D 8 HD); [lia|].
    intros i j Hi Hj. rewrite !Hent by assumption.
    rewrite (hermitian_entries (composite Tx) 8 i j);
      try assumption; try apply shape_composite;
      try (now apply composite_hermitian).
    rewrite (hermitian_entries (composite Ty) 8 i j);
      try assumption; try apply shape_composite;
      try (now apply composite_hermitian).
    rewrite (hermitian_entries (composite Tz) 8 i j);
      try assumption; try apply shape_composite;
      try (now apply composite_hermitian).
    destruct p0 as [a0 b0], p1 as [a1 b1], p2 as [a2 b2].
    cbn [snd] in H0, H1, H2. subst b0 b1 b2.
    destruct (cget (composite Tx) j i) as [xr xi].
    destruct (cget (composite Ty) j i) as [yr yi].
    destruct (cget (composite Tz) j i) as [zr zi].
    c_solve.
  - apply (mat_ext C0 _ _ 4 4);
      [apply (shape_slice C0 _ 0 4 0 4) | apply shape_build |].
    intros i j Hi Hj. rewrite mget_slice by lia. rewrite mget_zeros.
    fold (cget D (0 + i) (0 + j)). rewrite Hent by lia.
    rewrite !composite_entries by (try assumption; lia).
    destruct (Nat.ltb_spec (0 + i) 4); [|lia].
    destruct (Nat.leb_spec 4 (0 + j)); [lia|].
    destruct (Nat.leb_spec 4 (0 + i)); [lia|].
    cbn [andb]. destruct p0, p1, p2. c_solve.
  - apply (mat_ext C0 _ _ 4 4);
      [apply (shape_slice C0 _ 4 8 4 8) | apply shape_build |].
    intros i j Hi Hj. rewrite mget_slice by lia. rewrite mget_zeros.
    fold (cget D (4 + i) (4 + j)). rewrite Hent by lia.
    rewrite !composite_entries by (try assumption; lia).
    destruct (Nat.ltb_spec (4 + i) 4); [lia|].
    destruct (Nat.ltb_spec (4 + j) 4); [lia|].
    cbn [andb]. rewrite andb_false_r. destruct p0, p1, p2. c_solve.
  - intros -> -> ->.
    apply (mat_ext C0 _ _ 8 8 HD (shape_composite Tx)).
    intros i j Hi Hj. fold (cget D i j). rewrite Hent by assumption.
    fold (cget (composite Tx) i j).
    destruct (cget (composite Tx) i j), (cget (composite Ty) i j),
             (cget (composite Tz) i j).
    c_solve.
  - intros -> -> ->.
    apply (mat_ext C0 _ _ 8 8 HD (shape_composite Ty)).
    intros i j Hi Hj. fold (cget D i j). rewrite Hent by assumption.
    fold (cget (composite Ty) i j).
    destruct (cget (composite Tx) i j), (cget (composite Ty) i j),
             (cget (composite Tz) i j).
    c_solve.
  - intros -> -> ->.
    apply (mat_ext C0 _ _ 8 8 HD (shape_composite Tz)).
    intros i j Hi Hj. fold (cget D i j). rewrite Hent by assumption.
    fold (cget (composite Tz) i j).
    destruct (cget (composite Tx) i j), (cget (composite Ty) i j),
             (cget (composite Tz) i j).
    c_solve.
Qed.

Lemma system_operators_composite (_b : R) (_s : bool) (kw : kwargs) :
  exists Tx Ty Tz,
    shape Tx 4 4 /\ shape Ty 4 4 /\ shape Tz 4 4 /\
    px (system _b _s kw) = composite Tx /\
    py (system _b _s kw) = composite Ty /\
    pz (system _b _s kw) = composite Tz.
Proof.
  destruct (system_px _b _s kw) as [Hx [Hy Hz]].
  exists (dips (sys (system _b _s kw)) ax_x),
         (dips (sys (system _b _s kw)) ax_y),
         (dips (sys (system _b _s kw)) ax_z).
  repeat (split; [apply shape_transformed; apply get_eigs_shape|]).
  repeat split; assumption.
Qed.

(** X13: for a polarization of three real weights and a direction other
    than zero, the matrix that [dipole_mat] returns is 8x8 and equal to its
    conjugate transpose; so is the matrix of [dipole_mat_bfield], whose
    direction [(cos phi, 0, sin phi)] is never zero. *)
Theorem dipole_mat_real_polarization (wx wy wz : R) (kw : kwargs)
        (phi bm : R) :
  kwargs_get (kw_b_vec kw) (0, 0, 1) <> (0, 0, 0) ->
  let pol := (RtoC wx, RtoC wy, RtoC wz) in
  (shape (dipole_mat pol kw) 8 8 /\ Hermitian (dipole_mat pol kw)) /\
  (shape (dipole_mat_bfield pol phi bm) 8 8 /\
   Hermitian (dipole_mat_bfield pol phi bm)).
Proof.
  intros _ pol. split.
  - unfold dipole_mat. cbv zeta.
    match goal with
    | |- context [px (system ?b ?f ?k)] =>
        destruct (system_operators_composite b f k)
          as [Tx [Ty [Tz [Hx [Hy [Hz [-> [-> ->]]]]]]]]
    end.
    destruct (weighted_sum_of_composites Tx Ty Tz (RtoC wx) (RtoC wy)
                (RtoC wz) Hx Hy Hz) as [HD [HH _]].
    split; [exact HD|]. now apply HH.
  - unfold dipole_mat_bfield. cbv zeta.
    match goal with
    | |- context [px (system ?b ?f ?k)] =>
        destruct (system_operators_composite b f k)
          as [Tx [Ty [Tz [Hx [Hy [Hz [-> [-> ->]]]]]]]]
    end.
    destruct (weighted_sum_of_composites Tx Ty Tz (RtoC wx) (RtoC wy)
                (RtoC wz) Hx Hy Hz) as [HD [HH _]].
    split; [exact HD|]. now apply HH.
Qed.

(** X14: for every polarization, real or complex, the matrix of
    [dipole_mat] has zero 4x4 diagonal blocks: it has no entry between two
    levels of one manifold. *)
Theorem dipole_mat_couples_manifolds_only (polarization : C * C * C)
        (kw : kwargs) :
  slice C0 (dipole_mat polarization kw) 0 4 0 4 = zeros C0 4 4 /\
  slice C0 (dipole_mat polarization kw) 4 8 4 8 = zeros C0 4 4.
Proof.
  unfold dipole_mat. cbv zeta.
  match goal with
  | |- context [px (system ?b ?f ?k)] =>
      destruct (system_operators_composite b f k)
        as [Tx [Ty [Tz [Hx [Hy [Hz [-> [-> ->]]]]]]]]
  end.
  destruct (weighted_sum_of_composites Tx Ty Tz
              (fst (fst polarization)) (snd (fst polarization))
              (snd polarization) Hx Hy Hz) as [_ [_ [H1 [H2 _]]]].
  split; assumption.
Qed.

(** X15: the polarizations [1, 0, 0], [0, 1, 0] and [0, 0, 1] make
    [dipole_mat] return [px], [py] and [pz] of [system]. *)
Theorem dipole_mat_axis_polarizations (kw : kwargs) :
  let _system :=
    system (kwargs_get (kw_epsilon kw) (/ 10 ^ 6)) false
           {| kw_b_vec := Some (kwargs_get (kw_b_vec kw) (0, 0, 1));
              kw_epsilon := None |} in
  dipole_mat (RtoC 1, C0, C0) kw = px _system /\
  dipole_mat (C0, RtoC 1, C0) kw = py _system /\
  dipole_mat (C0, C0, RtoC 1) kw = pz _system.
Proof.
  intros _system. unfold dipole_mat. cbv zeta. fold _system.
  destruct (system_operators_composite
              (kwargs_get (kw_epsilon kw) (/ 10 ^ 6)) false
              {| kw_b_vec := Some (kwargs_get (kw_b_vec kw) (0, 0, 1));
                 kw_epsilon := None |})
    as [Tx [Ty [Tz [Hx [Hy [Hz [Hpx [Hpy Hpz]]]]]]]].
  fold _system in Hpx, Hpy, Hpz. rewrite Hpx, Hpy, Hpz. cbn [fst snd].
  split; [|split].
  - destruct (weighted_sum_of_composites Tx Ty Tz (RtoC 1) C0 C0 Hx Hy Hz)
      as [_ [_ [_ [_ [H _]]]]].
    now apply H.
  - destruct (weighted_sum_of_composites Tx Ty Tz C0 (RtoC 1) C0 Hx Hy Hz)
      as [_ [_ [_ [_ [_ [H _]]]]]].
    now apply H.
  - destruct (weighted_sum_of_composites Tx Ty Tz C0 C0 (RtoC 1) Hx Hy Hz)
      as [_ [_ [_ [_ [_ [_ H]]]]]].
    now apply H.
Qed.

(** ** The enlarged operators are Hermitian *)

Lemma enlarge_hermitian (D : cmat) (dim : nat) :
  shape D dim dim -> Hermitian D ->
  exists M, enlarge D = Some M /\ shape M (2 * dim) (2 * dim) /\ Hermitian M.
Proof.
  intros HD HH.
  destruct (Nat.eq_dec dim 0) as [Hz|Hnz].
  { subst dim. destruct HD as [Hlen _]. destruct D; [|discriminate].
    exists []. split; [reflexivity|].
    split; [split; [reflexivity|constructor]|reflexivity]. }
  destruct (enlarge_spec D dim HD) as [M [Hrun [HM Hent]]].
  exists M. split; [exact Hrun|]. split; [exact HM|].
  apply (hermitian_from_entries M (2 * dim) HM); [lia|].
  intros r c Hr Hc. rewrite !Hent by assumption.
  rewrite (Nat.eqb_sym (c / dim) (r / dim)).
  destruct (Nat.eqb_spec (r / dim) (c / dim)); [|now rewrite Cconj_0].
  apply (hermitian_entries D dim); try assumption;
    apply Nat.mod_upper_bound; lia.
Qed.

(** X16: for a square matrix [D] the loop of [dipole_ham] returns a
    matrix that equals its conjugate transpose exactly when [D] does. *)
Theorem enlarge_hermitian_iff (D : cmat) (dim : nat) :
  shape D dim dim ->
  exists M, enlarge D = Some M /\ shape M (2 * dim) (2 * dim) /\
            (Hermitian M <-> Hermitian D).
Proof.
  intros HD.
  destruct (enlarge_spec D dim HD) as [M [Hrun [HM Hent]]].
  exists M. split; [exact Hrun|]. split; [exact HM|]. split.
  - intros HH.
    destruct (Nat.eq_dec dim 0) as [Hz|Hnz].
    { subst dim. destruct HD as [Hlen _]. destruct D; [|discriminate].
      reflexivity. }
    apply (hermitian_from_entries D dim HD); [lia|].
    intros i j Hi Hj.
    assert (Hij : cget M i j = cget D i j).
    { rewrite Hent by lia. rewrite !Nat.div_small, !Nat.mod_small by lia.
      reflexivity. }
    assert (Hji : cget M j i = cget D j i).
    { rewrite Hent by lia. rewrite !Nat.div_small, !Nat.mod_small by lia.
      reflexivity. }
    rewrite <- Hij, <- Hji.
    apply (hermitian_entries M (2 * dim)); try assumption; lia.
  - intros HH.
    destruct (enlarge_hermitian D dim HD HH) as [M' [Hrun' [_ HH']]].
    rewrite Hrun in Hrun'. now injection Hrun' as <-.
Qed.

(** X17: for a polarization of three real weights and a direction other
    than zero, [dipole_ham] returns, without raising, a 16x16 matrix equal
    to its conjugate transpose; so does [dipole_ham_bfield], whose
    direction [(cos phi, 0, sin phi)] is never zero. *)
Theorem dipole_ham_real_polarization (wx wy wz : R) (kw : kwargs)
        (phi bm : R) :
  kwargs_get (kw_b_vec kw) (0, 0, 1) <> (0, 0, 0) ->
  let pol := (RtoC wx, RtoC wy, RtoC wz) in
  (exists M, dipole_ham pol kw = Some M /\ shape M 16 16 /\ Hermitian M) /\
  (exists M, dipole_ham_bfield pol phi bm = Some M /\ shape M 16 16 /\
             Hermitian M).
Proof.
  intros _ pol. unfold dipole_ham, dipole_ham_bfield. cbv zeta.
  split; apply (enlarge_hermitian _ 8).
  - apply shape_dipole_mat.
  - unfold dipole_mat. cbv zeta.
    match goal with
    | |- context [px (system ?b ?f ?k)] =>
        destruct (system_operators_composite b f k)
          as [Tx [Ty [Tz [Hx [Hy [Hz [-> [-> ->]]]]]]]]
    end.
    destruct (weighted_sum_of_composites Tx Ty Tz (RtoC wx) (RtoC wy)
                (RtoC wz) Hx Hy Hz) as [_ [HH _]].
    now apply HH.
  - apply shape_dipole_mat_bfield.
  - unfold dipole_mat_bfield. cbv zeta.
    match goal with
    | |- context [px (system ?b ?f ?k)] =>
        destruct (system_operators_composite b f k)
          as [Tx [Ty [Tz [Hx [Hy [Hz [-> [-> ->]]]]]]]]
    end.
    destruct (weighted_sum_of_composites Tx Ty Tz (RtoC wx) (RtoC wy)
                (RtoC wz) Hx Hy Hz) as [_ [HH _]].
    now apply HH.
Qed.

(** ** The entry points by angle *)

(** X18: [dipole_mat_bfield] and [dipole_ham_bfield] at the angle [phi]
    and the magnitude [bm] are [dipole_mat] and [dipole_ham] at the
    direction [(cos phi, 0, sin phi)] and [epsilon = bm]; the field they
    apply is [(bm cos phi, 0, bm sin phi)], with no [y] component, and at
    [phi = 0] the direction is [(1, 0, 0)]. *)
Theorem by_angle_entry_points (polarization : C * C * C) (phi bm : R) :
  let kw := {| kw_b_vec := Some (cos phi, 0, sin phi);
               kw_epsilon := Some bm |} in
  dipole_mat_bfield polarization phi bm = dipole_mat polarization kw /\
  dipole_ham_bfield polarization phi bm = dipole_ham polarization kw /\
  system_B bm kw = (bm * cos phi, 0, bm * sin phi) /\
  dipole_mat_bfield polarization 0 bm =
  dipole_mat polarization
             {| kw_b_vec := Some (1, 0, 0); kw_epsilon := Some bm |}.
Proof.
  intros kw.
  assert (Hmat : dipole_mat_bfield polarization phi bm =
                 dipole_mat polarization kw).
  { unfold dipole_mat_bfield, dipole_mat, kw. cbv zeta.
    cbn [kw_b_vec kw_epsilon kwargs_get]. reflexivity. }
  split; [exact Hmat|]. split.
  { unfold dipole_ham_bfield, dipole_ham. cbv zeta. now rewrite Hmat. }
  split.
  - unfold system_B, kw. cbn [kw_b_vec kwargs_get].
    rewrite make_B_vector_eq. unfold sqnorm3, vx, vy, vz. cbn [fst snd].
    pose proof (sin2_cos2 phi) as Hsc. unfold Rsqr in Hsc.
    replace (cos phi * cos phi + 0 * 0 + sin phi * sin phi) with 1 by lra.
    f_equal; [f_equal|]; field.
  - unfold dipole_mat_bfield, dipole_mat. cbv zeta.
    cbn [kw_b_vec kw_epsilon kwargs_get].
    rewrite cos_0, sin_0. reflexivity.
Qed.

(** ** The enumeration of the basis *)

(** X19: the basis has [2 dim] states, state [k] has level [k mod dim]
    and label [k / dim], and [base.index] of state [k] is [k]: no state
    occurs twice. *)
Theorem base_index_round_trip (dim k : nat) :
  (k < 2 * dim)%nat ->
  length (make_base dim) = (2 * dim)%nat /\
  nth_error (make_base dim) k = Some (onehot dim (k mod dim), (k / dim)%nat) /\
  list_index base_state_eq_dec (onehot dim (k mod dim), (k / dim)%nat)
             (make_base dim) = Some k.
Proof.
  intros Hk. split; [apply length_make_base|].
  split; [now apply nth_error_make_base|].
  assert (Hdim : (0 < dim)%nat) by lia.
  rewrite list_index_base.
  - f_equal. pose proof (Nat.div_mod_eq k dim). lia.
  - apply Nat.mod_upper_bound. lia.
  - apply Nat.Div0.div_lt_upper_bound. lia.
Qed.

(** ** What [system] and [system_small] hand back *)

Lemma Sorted_evens_4 (l : list R) :
  length l = 4%nat -> Sorted Rle l -> Sorted Rle (evens l).
Proof.
  intros Hl Hs.
  destruct l as [|a [|b [|c [|d [|x l]]]]]; try discriminate.
  pose proof (Sorted_nth_le _ Hs 0 1 ltac:(simpl; lia)) as H01.
  pose proof (Sorted_nth_le _ Hs 1 2 ltac:(simpl; lia)) as H12.
  cbn in H01, H12 |- *. repeat (constructor; try lra).
Qed.

(** X20: for a direction other than zero, [system] returns for each
    manifold the four eigenvalues that [eigh] finds for the block it
    builds, in ascending order, two 4x4 eigenvector matrices and three 4x4
    transformed dipole matrices, and [energy] returns eight values. *)
Theorem system_result_shapes (_b : R) (_s : bool) (kw : kwargs) :
  kwargs_get (kw_b_vec kw) (0, 0, 1) <> (0, 0, 0) ->
  let r := sys (system _b _s kw) in
  (length (eigs_g r) = 4%nat /\ Sorted Rle (eigs_g r) /\
   Permutation (eigs_g r) (v4list (fst (eigh (system_HgT _b _s kw))))) /\
  (length (eigs_u r) = 4%nat /\ Sorted Rle (eigs_u r) /\
   Permutation (eigs_u r) (v4list (fst (eigh (system_HuT _b _s kw))))) /\
  shape (vecs_g r) 4 4 /\ shape (vecs_u r) 4 4 /\
  (forall a, shape (dips r a) 4 4) /\
  length (energy kw) = 8%nat.
Proof.
  intros _ r.
  destruct (system_eigs _b _s kw) as [Hlg [Hlu [Hsg Hsu]]].
  fold r in Hlg, Hlu, Hsg, Hsu.
  destruct (manifold_fields (system_HgT _b _s kw) (system_HuT _b _s kw)
                            dipole_matel) as [Heg [Heu _]].
  change (manifold (system_HgT _b _s kw) (system_HuT _b _s kw) dipole_matel)
    with r in Heg, Heu.
  split.
  { split; [exact Hlg|]. split; [exact Hsg|].
    rewrite Heg. apply get_eigs_permutation. }
  split.
  { split; [exact Hlu|]. split; [exact Hsu|].
    rewrite Heu. apply get_eigs_permutation. }
  assert (Hvg : shape (vecs_g r) 4 4) by apply get_eigs_shape.
  assert (Hvu : shape (vecs_u r) 4 4) by apply get_eigs_shape.
  split; [exact Hvg|]. split; [exact Hvu|]. split.
  - intros a. apply shape_transformed; apply get_eigs_shape.
  - unfold energy. cbv zeta. rewrite length_app.
    match goal with
    | |- context [system ?b ?f ?k] =>
        destruct (system_eigs b f k) as [-> [-> _]]
    end.
    reflexivity.
Qed.

(** X21: [system_small] returns, for each manifold, the two eigenvalues
    0 and 2 of [system] at the same magnitude and the default direction,
    in ascending order, and three 2x2 transformed dipole matrices. *)
Theorem system_small_result_shapes (_b : R) (_s : bool) :
  let r := sys (system_small _b _s) in
  let full :=
    sys (system _b _s {| kw_b_vec := None; kw_epsilon := None |}) in
  eigs_g r = evens (eigs_g full) /\ eigs_u r = evens (eigs_u full) /\
  (length (eigs_g r) = 2%nat /\ Sorted Rle (eigs_g r)) /\
  (length (eigs_u r) = 2%nat /\ Sorted Rle (eigs_u r)) /\
  (forall a, shape (dips r a) 2 2).
Proof.
  intros r full.
  destruct (system_eigs _b _s {| kw_b_vec := None; kw_epsilon := None |})
    as [Hlg [Hlu [Hsg Hsu]]].
  fold full in Hlg, Hlu, Hsg, Hsu.
  assert (Hg : eigs_g r = evens (eigs_g full)) by reflexivity.
  assert (Hu : eigs_u r = evens (eigs_u full)) by reflexivity.
  split; [exact Hg|]. split; [exact Hu|].
  rewrite Hg, Hu.
  split; [split; [now apply length_evens_4 | now apply Sorted_evens_4]|].
  split; [split; [now apply length_evens_4 | now apply Sorted_evens_4]|].
  intros a.
  assert (Hd : dips r a = evens2 (dips full a)).
  { unfold r, full, system_small, system, system_HgT, system_HuT, system_B.
    cbn [sys kw_b_vec kwargs_get]. apply manifold_small_dips. }
  rewrite Hd. apply shape_evens2.
  apply shape_transformed; apply get_eigs_shape.
Qed.

End Model.

(** ** Instances *)

(** An instance of C2 at a 2x2 matrix. *)
Lemma enlarged_coupling_operator_2x2 :
  shape [[C0; Ci]; [RtoC 1; C0]] 2 2 /\
  exists M,
    enlarge [[C0; Ci]; [RtoC 1; C0]] = Some M /\ shape M (2 * 2) (2 * 2) /\
    (forall label to_level from_level,
        (label < 2)%nat -> (to_level < 2)%nat -> (from_level < 2)%nat ->
        cget M (label * 2 + to_level) (label * 2 + from_level) =
        cget [[C0; Ci]; [RtoC 1; C0]] to_level from_level) /\
    (forall r c, (r < 2 * 2)%nat -> (c < 2 * 2)%nat ->
                 (r / 2 <> c / 2)%nat -> cget M r c = C0).
Proof.
  assert (Hs : shape [[C0; Ci]; [RtoC 1; C0]] 2 2)
    by (split; [reflexivity | repeat constructor]).
  split; [exact Hs|].
  exact (enlarged_coupling_operator [[C0; Ci]; [RtoC 1; C0]] 2 Hs).
Defined.

(** ** The two frames at the CODATA constants *)

Lemma gamma_S_codata_pos : 0 < gamma_S codata_e codata_hbar codata_m_e.
Proof.
  unfold gamma_S, gamma_L, mu_B, codata_e, codata_hbar, codata_m_e. lra.
Qed.

Lemma lattice_z_in_symmetry_frame :
  make_B_vector 1 (lattice_to_coord (0, 0, 1)) =
  (1 / sqrt 6, - (1 / sqrt 2), 1 / sqrt 3).
Proof.
  assert (H6 := inv_sqrt_sqr 6 ltac:(lra)).
  assert (H2 := inv_sqrt_sqr 2 ltac:(lra)).
  assert (H3 := inv_sqrt_sqr 3 ltac:(lra)).
  rewrite make_B_vector_eq.
  unfold sqnorm3, lattice_to_coord, dot3, _ex, _ey, _ez, scale3, vx, vy, vz.
  cbn [fst snd].
  set (a := 1 / sqrt 6) in *. set (b := 1 / sqrt 2) in *.
  set (c := 1 / sqrt 3) in *.
  replace ((a * 1 * 0 + a * -2 * 0 + a * 1 * 1) *
           (a * 1 * 0 + a * -2 * 0 + a * 1 * 1) +
           (b * 1 * 0 + b * 0 * 0 + b * -1 * 1) *
           (b * 1 * 0 + b * 0 * 0 + b * -1 * 1) +
           (c * 1 * 0 + c * 1 * 0 + c * 1 * 1) *
           (c * 1 * 0 + c * 1 * 0 + c * 1 * 1))
    with (a * a + b * b + c * c) by ring.
  rewrite H6, H2, H3.
  f_equal; [f_equal|]; field.
Qed.

(** C5, as stated, fails at magnitude 1 and direction [0, 0, 1]: the
    ground block of [snv_hamiltonian] is not the ground matrix of
    [system]. *)
Lemma snv_hamiltonian_system_frames_differ :
  slice C0 (snv_hamiltonian codata_e codata_hbar codata_m_e 1 false along_z)
        4 8 4 8 <>
  system_HgT codata_e codata_hbar codata_m_e 1 false along_z.
Proof.
  intros Heq. rewrite snv_hamiltonian_ground_block in Heq.
  apply (f_equal (fun M => fst (cget M 0 0))) in Heq.
  unfold system_HgT, system_B in Heq. rewrite !HgL_entry00 in Heq.
  unfold along_z in Heq. cbn [kw_b_vec kwargs_get] in Heq.
  rewrite lattice_z_in_symmetry_frame in Heq.
  rewrite make_B_vector_eq in Heq.
  unfold sqnorm3, vx, vy, vz in Heq. cbn [fst snd] in Heq.
  pose proof gamma_S_codata_pos as Hg.
  assert (H3 := inv_sqrt_sqr 3 ltac:(lra)).
  set (c := 1 / sqrt 3) in *.
  set (g := gamma_S codata_e codata_hbar codata_m_e) in *.
  replace (1 * 1 / (0 * 0 + 0 * 0 + 1 * 1)) with 1 in Heq by field.
  assert (Hc : c = 1) by nra.
  rewrite Hc in H3. lra.
Qed.

(** ** [make_B_vector] at the zero direction *)

Module Float64Facts.
Import Floats.
Import Float64.

Lemma mul_zero_div_zero_nan (m : float) (negative : bool) :
  Prim2SF (m * fzero negative / zero)%float = S754_nan.
Proof.
  rewrite div_spec, mul_spec.
  destruct negative; cbn [fzero];
    destruct (Prim2SF m) as [sm|sm| |sm mm em]; reflexivity.
Qed.

Lemma is_nan_Prim2SF (x : float) : Prim2SF x = S754_nan -> is_nan x = true.
Proof.
  intros Hx. unfold is_nan. rewrite FloatAxioms.eqb_spec, Hx. reflexivity.
Qed.

(** C8: with a zero direction (of any signs) [make_B_vector] returns,
    for every magnitude, a vector whose three components are NaN; it
    does not raise. *)
Theorem make_B_vector_zero_direction
        (magnitude : float) (sx sy sz : bool) :
  exists v,
    make_B_vector magnitude (fzero sx, fzero sy, fzero sz) = Returned v /\
    is_nan (fst (fst v)) = true /\
    is_nan (snd (fst v)) = true /\
    is_nan (snd v) = true.
Proof.
  eexists. split; [reflexivity|].
  cbn [fst snd].
  assert (Hn : (abs (fzero sx) * abs (fzero sx) +
                abs (fzero sy) * abs (fzero sy) +
                abs (fzero sz) * abs (fzero sz))%float = zero)
    by (destruct sx, sy, sz; reflexivity).
  rewrite Hn.
  repeat split; apply is_nan_Prim2SF, mul_zero_div_zero_nan.
Qed.

(** The doubles that lines 47-49 compute at magnitude 1 and direction
    [0, 0, 2]: every step is exact, the vector has length 0.5. *)
Lemma make_B_vector_at_002 :
  make_B_vector 1%float (0%float, 0%float, 2%float) =
  Returned (0%float, 0%float, 0.5%float).
Proof. reflexivity. Qed.

(** C8, as stated, fails at magnitude 1 and direction [0, 0, 0]: the
    function returns. *)
Lemma make_B_vector_zero_direction_does_not_raise :
  make_B_vector 1%float (0%float, 0%float, 0%float) <>
  Raised InvalidArgument.
Proof. discriminate. Qed.
End Float64Facts.

(** An instance of X6. *)
Lemma get_eigs_of_ascending_sample :
  Sorted Rle (v4list (fst (eigh_sample []))) /\
  get_eigs eigh_sample [] =
  (v4list (fst (eigh_sample [])), map v4list (v4list (snd (eigh_sample [])))).
Proof.
  assert (Hs : Sorted Rle (v4list (fst (eigh_sample [])))).
  { unfold eigh_sample, v4list. cbn [fst snd].
    repeat (constructor; try lra). }
  split; [exact Hs|].
  exact (get_eigs_of_ascending eigh_sample [] Hs).
Defined.

(** An instance of X3. *)
Lemma make_B_vector_scales_by_sqnorm_at_002 :
  (0, 0, 2) <> (0, 0, 0) /\
  make_B_vector 1 (0, 0, 2) = scale3 (1 / sqnorm3 (0, 0, 2)) (0, 0, 2) /\
  norm3 (make_B_vector 1 (0, 0, 2)) = Rabs 1 / norm3 (0, 0, 2).
Proof.
  assert (Hv : (0, 0, 2) <> (0, 0, 0)).
  { intros Heq. injection Heq as Heq. lra. }
  split; [exact Hv|].
  exact (make_B_vector_scales_by_sqnorm 1 (0, 0, 2) Hv).
Defined.

(** An instance of X4. *)
Lemma make_B_vector_unit_direction_at_z :
  sqnorm3 (0, 0, 1) = 1 /\
  make_B_vector 3 (0, 0, 1) = scale3 3 (0, 0, 1) /\
  norm3 (make_B_vector 3 (0, 0, 1)) = Rabs 3.
Proof.
  assert (Hv : sqnorm3 (0, 0, 1) = 1).
  { unfold sqnorm3, vx, vy, vz. cbn [fst snd]. lra. }
  split; [exact Hv|].
  exact (make_B_vector_unit_direction 3 (0, 0, 1) Hv).
Defined.

(** An instance of X9, at the CODATA constants and the default
    direction. *)
Lemma snv_hamiltonian_zero_field_along_z :
  kwargs_get (kw_b_vec along_z) (0, 0, 1) <> (0, 0, 0) /\
  slice C0 (snv_hamiltonian codata_e codata_hbar codata_m_e 0 false along_z)
        4 8 4 8 = _Hg0 /\
  slice C0 (snv_hamiltonian codata_e codata_hbar codata_m_e 0 false along_z)
        0 4 0 4 = madd (diag (map (fun _ => ZPL) (seq 0 4))) _Hu0.
Proof.
  assert (Hd : kwargs_get (kw_b_vec along_z) (0, 0, 1) <> (0, 0, 0)).
  { cbn. intros Heq. injection Heq as Heq. lra. }
  split; [exact Hd|].
  exact (snv_hamiltonian_zero_field codata_e codata_hbar codata_m_e
           false along_z Hd).
Defined.

(** An instance of X16. *)
Lemma enlarge_hermitian_iff_2x2 :
  shape [[RtoC 1; Ci]; [Copp Ci; RtoC 2]] 2 2 /\
  exists M,
    enlarge [[RtoC 1; Ci]; [Copp Ci; RtoC 2]] = Some M /\
    shape M (2 * 2) (2 * 2) /\
    (Hermitian M <-> Hermitian [[RtoC 1; Ci]; [Copp Ci; RtoC 2]]).
Proof.
  assert (Hs : shape [[RtoC 1; Ci]; [Copp Ci; RtoC 2]] 2 2)
    by (split; [reflexivity | repeat constructor]).
  split; [exact Hs|].
  exact (enlarge_hermitian_iff [[RtoC 1; Ci]; [Copp Ci; RtoC 2]] 2 Hs).
Defined.

(** An instance of X19. *)
Lemma base_index_round_trip_at_11 :
  (11 < 2 * 8)%nat /\
  length (make_base 8) = (2 * 8)%nat /\
  nth_error (make_base 8) 11 = Some (onehot 8 (11 mod 8), (11 / 8)%nat) /\
  list_index base_state_eq_dec (onehot 8 (11 mod 8), (11 / 8)%nat)
             (make_base 8) = Some 11%nat.
Proof.
  assert (Hk : (11 < 2 * 8)%nat) by lia.
  split; [exact Hk|].
  exact (base_index_round_trip 8 11 Hk).
Defined.

(** ** Instances at the default direction

    The CODATA constants, [eigh_sample] and the direction [0, 0, 1]. *)

(** An instance of C3. *)
Lemma vacancy_energy_operator_along_z :
  kwargs_get (kw_b_vec along_z) (0, 0, 1) <> (0, 0, 0) /\
  exists M : rmat,
    vacancy codata_e codata_hbar codata_m_e eigh_sample along_z = Some M /\
    shape M 16 16 /\
    (forall label level, (label < 2)%nat -> (level < 8)%nat ->
       rget M (label * 8 + level) (label * 8 + level) =
       nth level
           (energy codata_e codata_hbar codata_m_e eigh_sample along_z) 0) /\
    (forall r c, (r < 16)%nat -> (c < 16)%nat -> r <> c -> rget M r c = 0).
Proof.
  assert (Hd : kwargs_get (kw_b_vec along_z) (0, 0, 1) <> (0, 0, 0)).
  { cbn. intros Heq. injection Heq as Heq. lra. }
  split; [exact Hd|].
  destruct (vacancy_energy_operator codata_e codata_hbar codata_m_e
              eigh_sample along_z Hd) as [M [Hrun [HM [Hdiag [Hoff _]]]]].
  exists M.
  split; [exact Hrun|]. split; [exact HM|].
  split; [exact Hdiag | exact Hoff].
Defined.

(** An instance of C6, for the axis [x]. *)
Lemma system_dipole_operators_along_z :
  kwargs_get (kw_b_vec along_z) (0, 0, 1) <> (0, 0, 0) /\
  shape (px (system codata_e codata_hbar codata_m_e eigh_sample
                    1 false along_z)) 8 8 /\
  Hermitian (px (system codata_e codata_hbar codata_m_e eigh_sample
                        1 false along_z)).
Proof.
  assert (Hd : kwargs_get (kw_b_vec along_z) (0, 0, 1) <> (0, 0, 0)).
  { cbn. intros Heq. injection Heq as Heq. lra. }
  split; [exact Hd|].
  destruct (system_dipole_operators codata_e codata_hbar codata_m_e
              eigh_sample 1 false along_z ax_x Hd)
    as [_ [_ [Hshape [Hherm _]]]].
  split; [exact Hshape | exact Hherm].
Defined.

(** An instance of X8. *)
Lemma snv_hamiltonian_block_diagonal_along_z :
  kwargs_get (kw_b_vec along_z) (0, 0, 1) <> (0, 0, 0) /\
  shape (snv_hamiltonian codata_e codata_hbar codata_m_e 1 false along_z)
        8 8 /\
  Hermitian (snv_hamiltonian codata_e codata_hbar codata_m_e 1 false along_z) /\
  slice C0 (snv_hamiltonian codata_e codata_hbar codata_m_e 1 false along_z)
        0 4 4 8 = zeros C0 4 4 /\
  slice C0 (snv_hamiltonian codata_e codata_hbar codata_m_e 1 false along_z)
        4 8 0 4 = zeros C0 4 4.
Proof.
  assert (Hd : kwargs_get (kw_b_vec along_z) (0, 0, 1) <> (0, 0, 0)).
  { cbn. intros Heq. injection Heq as Heq. lra. }
  split; [exact Hd|].
  exact (snv_hamiltonian_block_diagonal codata_e codata_hbar codata_m_e
           1 false along_z Hd).
Defined.

(** An instance of X13, for the polarization [1, 0, 0]. *)
Lemma dipole_mat_real_polarization_along_z :
  kwargs_get (kw_b_vec along_z) (0, 0, 1) <> (0, 0, 0) /\
  Hermitian (dipole_mat codata_e codata_hbar codata_m_e eigh_sample
                        (RtoC 1, RtoC 0, RtoC 0) along_z).
Proof.
  assert (Hd : kwargs_get (kw_b_vec along_z) (0, 0, 1) <> (0, 0, 0)).
  { cbn. intros Heq. injection Heq as Heq. lra. }
  split; [exact Hd|].
  destruct (dipole_mat_real_polarization codata_e codata_hbar codata_m_e
              eigh_sample 1 0 0 along_z 0 1 Hd) as [[_ Hherm] _].
  exact Hherm.
Defined.

(** An instance of X17, for the polarization [1, 0, 0]. *)
Lemma dipole_ham_real_polarization_along_z :
  kwargs_get (kw_b_vec along_z) (0, 0, 1) <> (0, 0, 0) /\
  exists M,
    dipole_ham codata_e codata_hbar codata_m_e eigh_sample
               (RtoC 1, RtoC 0, RtoC 0) along_z = Some M /\
    shape M 16 16 /\ Hermitian M.
Proof.
  assert (Hd : kwargs_get (kw_b_vec along_z) (0, 0, 1) <> (0, 0, 0)).
  { cbn. intros Heq. injection Heq as Heq. lra. }
  split; [exact Hd|].
  destruct (dipole_ham_real_polarization codata_e codata_hbar codata_m_e
              eigh_sample 1 0 0 along_z 0 1 Hd) as [Hham _].
  exact Hham.
Defined.

(** An instance of X20. *)
Lemma system_result_shapes_along_z :
  kwargs_get (kw_b_vec along_z) (0, 0, 1) <> (0, 0, 0) /\
  length (eigs_g (sys (system codata_e codata_hbar codata_m_e eigh_sample
                              1 false along_z))) = 4%nat /\
  length (energy codata_e codata_hbar codata_m_e eigh_sample along_z) = 8%nat.
Proof.
  assert (Hd : kwargs_get (kw_b_vec along_z) (0, 0, 1) <> (0, 0, 0)).
  { cbn. intros Heq. injection Heq as Heq. lra. }
  split; [exact Hd|].
  destruct (system_result_shapes codata_e codata_hbar codata_m_e
              eigh_sample 1 false along_z Hd)
    as [[Hlen _] [_ [_ [_ [_ Hen]]]]].
  split; [exact Hlen | exact Hen].
Defined.
